(** * uvicorn/server.py: shared server state, orchestrator and signal capture

    A shallow embedding of [ServerState] and of the [Server] methods that
    decide the lifecycle properties: the event pool, the date header cache,
    the max-requests monitor, graceful shutdown and OS-signal capture. *)

From Stdlib Require Import ZArith Lia String Sorted.
From stdpp Require Import gmap list pretty.

Local Open Scope Z_scope.

(** ** asyncio.Event objects

    Events are mutable objects with identity: the pool, the callers and the
    server state may all hold the same object.  An object is a reference into
    a store that maps each allocated event to its flag ([_value]). *)

Abbreviation ref := positive.
Abbreviation heap := (gmap positive bool).

(** [asyncio.Event()]: a new object, distinct from every allocated one, unset. *)
Definition Event_new (h : heap) : ref * heap :=
  let l := fresh (dom h) in (l, <[l := false]> h).

(** [event.clear()] *)
Definition Event_clear (l : ref) (h : heap) : heap := <[l := false]> h.

(** [event.set()] *)
Definition Event_set (l : ref) (h : heap) : heap := <[l := true]> h.

(** [event.is_set()]; [None] for a reference that was never allocated. *)
Definition Event_is_set (l : ref) (h : heap) : option bool := h !! l.

(** ** ServerState *)

Abbreviation bytes := (list Byte.byte).

(** The slots of [ServerState].  [_event_pool_lock] is created by [__init__]
    and never read by any method; it carries no state and is left out. *)
Record ServerState := mkServerState {
  total_requests : Z;
  connections : gset positive;
  tasks : gset positive;
  default_headers : list (bytes * bytes);
  _event_pool : list ref;
  _event_pool_max_size : Z;
  _shutdown_event : ref;
  _cached_date : option bytes;
  _cached_date_time : Z
}.

Definition with_event_pool (p : list ref) (s : ServerState) : ServerState :=
  mkServerState (total_requests s) (connections s) (tasks s) (default_headers s)
    p (_event_pool_max_size s) (_shutdown_event s) (_cached_date s) (_cached_date_time s).

Definition with_event_pool_max_size (n : Z) (s : ServerState) : ServerState :=
  mkServerState (total_requests s) (connections s) (tasks s) (default_headers s)
    (_event_pool s) n (_shutdown_event s) (_cached_date s) (_cached_date_time s).

Definition with_total_requests (n : Z) (s : ServerState) : ServerState :=
  mkServerState n (connections s) (tasks s) (default_headers s)
    (_event_pool s) (_event_pool_max_size s) (_shutdown_event s) (_cached_date s)
    (_cached_date_time s).

Definition with_connections (c : gset positive) (s : ServerState) : ServerState :=
  mkServerState (total_requests s) c (tasks s) (default_headers s)
    (_event_pool s) (_event_pool_max_size s) (_shutdown_event s) (_cached_date s)
    (_cached_date_time s).

Definition with_tasks (t : gset positive) (s : ServerState) : ServerState :=
  mkServerState (total_requests s) (connections s) t (default_headers s)
    (_event_pool s) (_event_pool_max_size s) (_shutdown_event s) (_cached_date s)
    (_cached_date_time s).

Definition with_cached_date (d : option bytes) (t : Z) (s : ServerState) : ServerState :=
  mkServerState (total_requests s) (connections s) (tasks s) (default_headers s)
    (_event_pool s) (_event_pool_max_size s) (_shutdown_event s) d t.

(** [ServerState.__init__] *)
Definition ServerState_init (h : heap) : ServerState * heap :=
  let '(ev, h') := Event_new h in
  (mkServerState 0 ∅ ∅ [] [] 1000 ev None 0, h').

(** [list.pop()]: removes and returns the last item; [None] stands for the
    [IndexError] raised on an empty list. *)
Definition list_pop {A} (l : list A) : option (A * list A) :=
  match last l with
  | Some x => Some (x, removelast l)
  | None => None
  end.

(** [ServerState.acquire_event] *)
Definition acquire_event (self : ServerState) (h : heap) : ref * ServerState * heap :=
  let create := let '(e, h') := Event_new h in (e, self, h') in
  if bool_decide (_event_pool self ≠ []) then
    match list_pop (_event_pool self) with
    | Some (event, rest) => (event, with_event_pool rest self, Event_clear event h)
    | None => create
    end
  else create.

(** [ServerState.release_event] *)
Definition release_event (self : ServerState) (event : ref) (h : heap)
  : ServerState * heap :=
  if Z.of_nat (length (_event_pool self)) <? _event_pool_max_size self then
    (with_event_pool (_event_pool self ++ [event]) self, Event_clear event h)
  else (self, h).

(** The pool holds no more events than its ceiling allows. *)
Definition pool_within_capacity (st : ServerState * heap) : Prop :=
  Z.of_nat (length (_event_pool st.1)) ≤ _event_pool_max_size st.1.

(** A caller's view of the pool: a sequence of operations.  [Release] may
    hand back any event object, [SetEvent] is a caller using an event it
    holds. *)
Inductive pool_op :=
| Acquire
| Release (event : ref)
| SetEvent (event : ref).

Definition pool_step (st : ServerState * heap) (op : pool_op) : ServerState * heap :=
  match op with
  | Acquire => let '(_, s, h) := acquire_event st.1 st.2 in (s, h)
  | Release e => release_event st.1 e st.2
  | SetEvent e => (st.1, Event_set e st.2)
  end.

Definition pool_run (ops : list pool_op) (st : ServerState * heap) : ServerState * heap :=
  fold_left pool_step ops st.

(** [events = [state.acquire_event() for _ in range(n)]] *)
Fixpoint acquire_many (n : nat) (self : ServerState) (h : heap)
  : list ref * ServerState * heap :=
  match n with
  | O => ([], self, h)
  | S n' =>
      let '(e, self1, h1) := acquire_event self h in
      let '(es, self2, h2) := acquire_many n' self1 h1 in
      (e :: es, self2, h2)
  end.

(** [for event in events: state.release_event(event)] *)
Fixpoint release_all (events : list ref) (self : ServerState) (h : heap)
  : ServerState * heap :=
  match events with
  | [] => (self, h)
  | e :: es => let '(self1, h1) := release_event self e h in release_all es self1 h1
  end.

(** Acquire [n] events, then release each of them; the pool that results. *)
Definition acquire_then_release (n : nat) (self : ServerState) (h : heap)
  : ServerState * heap :=
  let '(es, self1, h1) := acquire_many n self h in release_all es self1 h1.

(** Every pooled event is unset. *)
Definition pool_all_unset (st : ServerState * heap) : Prop :=
  Forall (fun e => Event_is_set e st.2 = Some false) (_event_pool st.1).

(** Callers set only events they hold: no [SetEvent] in [ops] is applied to
    an event that is in the pool at that moment. *)
Fixpoint sets_only_held_events (ops : list pool_op) (st : ServerState * heap) : Prop :=
  match ops with
  | [] => True
  | op :: rest =>
      match op with
      | SetEvent e => e ∉ _event_pool st.1
      | _ => True
      end
      ∧ sets_only_held_events rest (pool_step st op)
  end.

(** ** The date header cache *)

Section DateHeaderCache.

(** [email.utils.formatdate(t, usegmt=True)] of the Python library. *)
Variable formatdate : Z -> string.

(** [str.encode()] on the ASCII text that [formatdate] produces. *)
Definition encode (s : string) : bytes := list_byte_of_string s.

(** [ServerState.get_date_header], with [int(time.time())] supplied as
    [current_time].  The third component lists the arguments of the
    [formatdate] calls the invocation made. *)
Definition get_date_header (self : ServerState) (current_time : Z)
  : option bytes * ServerState * list Z :=
  let '(self1, calls) :=
    if negb (current_time =? _cached_date_time self) || bool_decide (_cached_date self = None)
    then (with_cached_date (Some (encode (formatdate current_time))) current_time self,
          [current_time])
    else (self, [])
  in (_cached_date self1, self1, calls).

(** Consecutive calls, one per element of [times]. *)
Fixpoint get_date_header_seq (times : list Z) (self : ServerState)
  : list (option bytes) * ServerState * list Z :=
  match times with
  | [] => ([], self, [])
  | t :: ts =>
      let '(v, self1, c1) := get_date_header self t in
      let '(vs, self2, c2) := get_date_header_seq ts self1 in
      (v :: vs, self2, c1 ++ c2)
  end.

End DateHeaderCache.

(** What the cache holds, if anything, is the formatted date of the second
    it was stored for. *)
Definition date_cache_consistent (formatdate : Z -> string) (self : ServerState) : Prop :=
  ∀ v, _cached_date self = Some v → v = encode (formatdate (_cached_date_time self)).

(** ** Server *)

(** [signal.SIGINT], [signal.SIGTERM] and, on Windows, [signal.SIGBREAK]. *)
Definition SIGINT : Z := 2.
Definition SIGTERM : Z := 15.
Definition SIGBREAK : Z := 21.

Definition HANDLED_SIGNALS (win32 : bool) : list Z :=
  [SIGINT; SIGTERM] ++ (if win32 then [SIGBREAK] else []).

(** The options of [Config] that the methods below read. *)
Record Config := mkConfig {
  limit_max_requests : option Z;
  timeout_graceful_shutdown : option Z  (* seconds *)
}.

(** The attributes of [Server].  [last_notified] (a float used by the notify
    loop only) and [lifespan] (a collaborator) are not state of the methods
    modelled here; [servers] is bound by [startup]. *)
Record Server := mkServer {
  config : Config;
  server_state : ServerState;
  started : bool;
  should_exit : bool;
  force_exit : bool;
  _captured_signals : list Z;
  servers : list positive
}.

Definition with_server_state (st : ServerState) (s : Server) : Server :=
  mkServer (config s) st (started s) (should_exit s) (force_exit s)
    (_captured_signals s) (servers s).

Definition with_should_exit (b : bool) (s : Server) : Server :=
  mkServer (config s) (server_state s) (started s) b (force_exit s)
    (_captured_signals s) (servers s).

Definition with_force_exit (b : bool) (s : Server) : Server :=
  mkServer (config s) (server_state s) (started s) (should_exit s) b
    (_captured_signals s) (servers s).

Definition with_captured_signals (l : list Z) (s : Server) : Server :=
  mkServer (config s) (server_state s) (started s) (should_exit s) (force_exit s)
    l (servers s).

Definition with_servers (l : list positive) (s : Server) : Server :=
  mkServer (config s) (server_state s) (started s) (should_exit s) (force_exit s)
    (_captured_signals s) l.

(** [Server.__init__] *)
Definition Server_init (cfg : Config) (h : heap) : Server * heap :=
  let '(st, h') := ServerState_init h in
  (mkServer cfg st false false false [] [], h').

(** [Server.handle_exit].  The two [hasattr] tests at its end hold for every
    object built by [Server.__init__], which binds [server_state] to a
    [ServerState] whose [__init__] binds [_shutdown_event]; a [Server] record
    is such an object, so the guarded [set()] is always reached. *)
Definition handle_exit (self : Server) (sig : Z) (h : heap) : Server * heap :=
  let self1 := with_captured_signals (_captured_signals self ++ [sig]) self in
  let self2 :=
    if should_exit self1 && (sig =? SIGINT)
    then with_force_exit true self1
    else with_should_exit true self1 in
  (self2, Event_set (_shutdown_event (server_state self2)) h).

(** Signals delivered one after the other. *)
Definition handle_exit_seq (sigs : list Z) (st : Server * heap) : Server * heap :=
  fold_left (fun st sig => handle_exit st.1 sig st.2) sigs st.

(** No signal of [sigs] is an interrupt that arrives while [should_exit] is
    already set. *)
Fixpoint no_interrupt_while_exiting (sigs : list Z) (st : Server * heap) : bool :=
  match sigs with
  | [] => true
  | sig :: rest =>
      negb (should_exit st.1 && (sig =? SIGINT))
      && no_interrupt_while_exiting rest (handle_exit st.1 sig st.2)
  end.

(** ** Effects, the environment and the coroutine monad *)

Inductive level := INFO | WARNING | ERROR.

(** What [signal.signal] can install for a signal number. *)
Inductive handler :=
| SIG_DFL
| SIG_IGN
| default_int_handler
| self_handle_exit
| foreign_handler (tag : nat).

(** Calls that leave the orchestrator, in the order they are made. *)
Inductive effect :=
| Log (lvl : level) (msg : string) (args : list Z)
| ListenerClose (server : positive)
| SocketClose (sock : positive)
| ConnectionShutdown (connection : positive)
| TaskCancel (task : positive) (msg : string)
| LifespanShutdown
| SignalInstall (sig : Z) (h : handler)
| RaiseSignal (sig : Z).

(** What the rest of the process does while a coroutine is suspended. *)
Inductive env_event :=
| EnvStep (f : Server * heap -> Server * heap)
| EnvSignal (sig : Z)
| EnvTimeout
| EnvCancel.

Inductive exn := TimeoutError | CancelledError | TypeError | OtherError (tag : nat).

(** [Pending]: the coroutine is suspended and the schedule holds no further
    event for it. *)
Inductive Res (A : Type) :=
| Ok (a : A)
| Raise (e : exn)
| Pending.
Arguments Ok {A} a.
Arguments Raise {A} e.
Arguments Pending {A}.

Record World := mkWorld {
  w_self : Server;
  w_heap : heap;
  w_handlers : gmap Z handler;
  w_main_thread : bool;
  w_win32 : bool;
  w_trace : list effect;
  w_sched : list env_event
}.

Definition with_self (s : Server) (w : World) : World :=
  mkWorld s (w_heap w) (w_handlers w) (w_main_thread w) (w_win32 w) (w_trace w) (w_sched w).
Definition with_heap (h : heap) (w : World) : World :=
  mkWorld (w_self w) h (w_handlers w) (w_main_thread w) (w_win32 w) (w_trace w) (w_sched w).
Definition with_handlers (t : gmap Z handler) (w : World) : World :=
  mkWorld (w_self w) (w_heap w) t (w_main_thread w) (w_win32 w) (w_trace w) (w_sched w).
Definition with_trace (t : list effect) (w : World) : World :=
  mkWorld (w_self w) (w_heap w) (w_handlers w) (w_main_thread w) (w_win32 w) t (w_sched w).
Definition with_sched (l : list env_event) (w : World) : World :=
  mkWorld (w_self w) (w_heap w) (w_handlers w) (w_main_thread w) (w_win32 w) (w_trace w) l.

(** [signal.getsignal]: a signal nobody installed a handler for has the
    default disposition. *)
Definition getsignal (sig : Z) (w : World) : handler :=
  default SIG_DFL (w_handlers w !! sig).

(** One event of the environment acting on the orchestrator's state.  A
    signal reaches [handle_exit] when that is the installed handler. *)
Definition deliver (ev : env_event) (w : World) : World :=
  match ev with
  | EnvStep f =>
      let '(s, h) := f (w_self w, w_heap w) in with_heap h (with_self s w)
  | EnvSignal sig =>
      match getsignal sig w with
      | self_handle_exit =>
          let '(s, h) := handle_exit (w_self w) sig (w_heap w) in
          with_heap h (with_self s w)
      | _ => w
      end
  | EnvTimeout | EnvCancel => w
  end.

Definition M (A : Type) : Type := World -> Res A * World.

#[global] Instance M_ret : MRet M := fun A a w => (Ok a, w).

#[global] Instance M_bind : MBind M := fun A B k m w =>
  match m w with
  | (Ok a, w') => k a w'
  | (Raise e, w') => (Raise e, w')
  | (Pending, w') => (Pending, w')
  end.

Definition raise {A} (e : exn) : M A := fun w => (Raise e, w).
Definition get_self : M Server := fun w => (Ok (w_self w), w).
Definition modify_self (f : Server -> Server) : M unit :=
  fun w => (Ok tt, with_self (f (w_self w)) w).
Definition modify_heap (f : heap -> heap) : M unit :=
  fun w => (Ok tt, with_heap (f (w_heap w)) w).
Definition emit (e : effect) : M unit :=
  fun w => (Ok tt, with_trace (w_trace w ++ [e]) w).
Definition log (lvl : level) (msg : string) (args : list Z) : M unit :=
  emit (Log lvl msg args).

Definition exn_eqb (a b : exn) : bool :=
  match a, b with
  | TimeoutError, TimeoutError => true
  | CancelledError, CancelledError => true
  | TypeError, TypeError => true
  | OtherError m, OtherError n => Nat.eqb m n
  | _, _ => false
  end.

(** [try: body / except E: handler] *)
Definition try_except {A} (body : M A) (E : exn) (handler : M A) : M A := fun w =>
  match body w with
  | (Raise e, w') => if exn_eqb e E then handler w' else (Raise e, w')
  | r => r
  end.

(** [try: body / finally: fin] *)
Definition try_finally {A} (body : M A) (fin : M unit) : M A := fun w =>
  match body w with
  | (Ok a, w') => (fin ;; mret a) w'
  | (Raise e, w') => (fin ;; raise e) w'
  | (Pending, w') => (Pending, w')
  end.

(** [for x in l: f(x)] *)
Fixpoint for_each {A} (l : list A) (f : A -> M unit) : M unit :=
  match l with
  | [] => mret tt
  | x :: xs => f x ;; for_each xs f
  end.

Inductive ctl := Continue | Break.

(** [while cond: body], where the body says whether it reached [continue]
    (or its end) or [break]. *)
Fixpoint loop_ (fuel : nat) (cond : Server -> bool) (body : M ctl) : M unit := fun w =>
  match fuel with
  | O => (Pending, w)
  | S n =>
      if cond (w_self w) then
        match body w with
        | (Ok Continue, w') => loop_ n cond body w'
        | (Ok Break, w') => (Ok tt, w')
        | (Raise e, w') => (Raise e, w')
        | (Pending, w') => (Pending, w')
        end
      else (Ok tt, w)
  end.

(** The loops below suspend at least once per iteration that continues, so
    one iteration per scheduled event and a last one are enough. *)
Definition while_ (cond : Server -> bool) (body : M ctl) : M unit :=
  fun w => loop_ (S (length (w_sched w))) cond body w.

(** A suspension that ends by itself ([asyncio.sleep], [wait_closed]): the
    coroutine resumes after the next event.  [armed] says whether an enclosing
    [asyncio.wait_for] has a deadline; a timer event reaches armed
    suspensions only. *)
Fixpoint suspend_on (armed : bool) (sched : list env_event) (w : World)
  : Res unit * World :=
  match sched with
  | [] => (Pending, with_sched [] w)
  | EnvTimeout :: rest =>
      if armed then (Raise TimeoutError, with_sched rest w)
      else suspend_on armed rest w
  | EnvCancel :: rest => (Raise CancelledError, with_sched rest w)
  | ev :: rest => (Ok tt, with_sched rest (deliver ev w))
  end.

Definition suspend (armed : bool) : M unit := fun w => suspend_on armed (w_sched w) w.

(** [await event.wait()]: returns at once when the event is set, otherwise
    stays suspended until an event of the environment sets it. *)
Fixpoint Event_wait_on (armed : bool) (l : ref) (sched : list env_event) (w : World)
  : Res unit * World :=
  if bool_decide (Event_is_set l (w_heap w) = Some true) then (Ok tt, with_sched sched w)
  else
    match sched with
    | [] => (Pending, with_sched [] w)
    | EnvTimeout :: rest =>
        if armed then (Raise TimeoutError, with_sched rest w)
        else Event_wait_on armed l rest w
    | EnvCancel :: rest => (Raise CancelledError, with_sched rest w)
    | ev :: rest => Event_wait_on armed l rest (deliver ev w)
    end.

Definition Event_wait (l : ref) (armed : bool) : M unit :=
  fun w => Event_wait_on armed l (w_sched w) w.

(** [asyncio.wait_for(coro, timeout)], the timeout in milliseconds: the
    coroutine runs with a deadline unless [timeout] is [None]. *)
Definition wait_for {A} (coro : bool -> M A) (timeout : option Z) : M A :=
  coro (bool_decide (timeout ≠ None)).

(** ** The max-requests monitor *)

Definition shutdown_event_set : M unit := fun w =>
  (Ok tt, with_heap (Event_set (_shutdown_event (server_state (w_self w))) (w_heap w)) w).

Definition max_requests_message (limit : Z) : string :=
  "Maximum request limit of " +:+ pretty limit +:+ " exceeded. Terminating process.".

(** The body of the [while] loop of [Server._check_max_requests].  Comparing
    an [int] with an unset ([None]) ceiling is a [TypeError]. *)
Definition check_max_requests_iter : M ctl :=
  self ← get_self;
  match limit_max_requests (config self) with
  | None => raise TypeError
  | Some limit =>
      if total_requests (server_state self) >=? limit then
        log WARNING (max_requests_message limit) [];;
        modify_self (with_should_exit true);;
        shutdown_event_set;;
        mret Break
      else
        try_except
          (wait_for (Event_wait (_shutdown_event (server_state self))) (Some 100);;
           mret Break)
          TimeoutError
          (mret Continue)
  end.

(** [Server._check_max_requests] *)
Definition _check_max_requests : M unit :=
  try_except
    (while_ (fun self => negb (should_exit self)) check_max_requests_iter)
    CancelledError
    (mret tt).

(** ** Graceful shutdown *)

Definition nonempty (X : gset positive) : bool := bool_decide (X ≠ ∅).

(** [Server._wait_tasks_to_complete]; [armed] is the deadline of the
    [wait_for] that runs it. *)
Definition _wait_tasks_to_complete (armed : bool) : M unit :=
  self ← get_self;
  (if nonempty (connections (server_state self)) && negb (force_exit self) then
     log INFO "Waiting for connections to close. (CTRL+C to force quit)" [];;
     while_ (fun self => nonempty (connections (server_state self)) && negb (force_exit self))
            (suspend armed;; mret Continue)
   else mret tt);;
  self ← get_self;
  (if nonempty (tasks (server_state self)) && negb (force_exit self) then
     log INFO "Waiting for background tasks to complete. (CTRL+C to force quit)" [];;
     while_ (fun self => nonempty (tasks (server_state self)) && negb (force_exit self))
            (suspend armed;; mret Continue)
   else mret tt);;
  self ← get_self;
  for_each (servers self) (fun _ => suspend armed).

Definition cancel_message : string :=
  "Task cancelled, timeout graceful shutdown exceeded".

(** The [except asyncio.TimeoutError] block of [Server.shutdown]. *)
Definition force_cancel_tasks : M unit :=
  self ← get_self;
  log ERROR "Cancel %s running task(s), timeout graceful shutdown exceeded"
      [Z.of_nat (size (tasks (server_state self)))];;
  for_each (elements (tasks (server_state self))) (fun t => emit (TaskCancel t cancel_message)).

(** [Server.shutdown] up to and including [await asyncio.sleep(0.1)]. *)
Definition shutdown_stop_accepting (sockets : option (list positive)) : M unit :=
  log INFO "Shutting down" [];;
  self ← get_self;
  for_each (servers self) (fun server => emit (ListenerClose server));;
  for_each (default [] sockets) (fun sock => emit (SocketClose sock));;
  self ← get_self;
  for_each (elements (connections (server_state self)))
           (fun connection => emit (ConnectionShutdown connection));;
  suspend false.

(** The drain: [await asyncio.wait_for(self._wait_tasks_to_complete(), ...)]. *)
Definition shutdown_drain : M unit :=
  self ← get_self;
  wait_for _wait_tasks_to_complete
           (Z.mul 1000 <$> timeout_graceful_shutdown (config self)).

(** [Server.shutdown] *)
Definition shutdown (sockets : option (list positive)) : M unit :=
  shutdown_stop_accepting sockets;;
  try_except shutdown_drain TimeoutError force_cancel_tasks;;
  self ← get_self;
  if negb (force_exit self) then emit LifespanShutdown else mret tt.

(** ** Signal capture *)

(** [signal.signal(sig, h)]: installs [h], returns what was installed. *)
Definition signal_signal (sig : Z) (h : handler) : M handler := fun w =>
  (Ok (getsignal sig w),
   with_trace (w_trace w ++ [SignalInstall sig h])
     (with_handlers (<[sig := h]> (w_handlers w)) w)).

(** [{sig: signal.signal(sig, self.handle_exit) for sig in sigs}], in
    insertion order. *)
Fixpoint install_handlers (sigs : list Z) : M (list (Z * handler)) :=
  match sigs with
  | [] => mret []
  | sig :: rest =>
      prev ← signal_signal sig self_handle_exit;
      more ← install_handlers rest;
      mret ((sig, prev) :: more)
  end.

Definition restore_handlers (original_handlers : list (Z * handler)) : M unit :=
  for_each original_handlers (fun '(sig, h) => signal_signal sig h;; mret tt).

(** [signal.raise_signal(sig)]: the signal goes to whatever handler is
    installed by then, which belongs to the enclosing process. *)
Definition raise_signal (sig : Z) : M unit := emit (RaiseSignal sig).

(** [with self.capture_signals(): body] *)
Definition capture_signals {A} (body : M A) : M A := fun w =>
  if negb (w_main_thread w) then body w
  else
    (original_handlers ← install_handlers (HANDLED_SIGNALS (w_win32 w));
     a ← try_finally body (restore_handlers original_handlers);
     self ← get_self;
     for_each (rev (_captured_signals self)) raise_signal;;
     mret a) w.


(** The wait of [Server.main_loop]:
    [await self.server_state._shutdown_event.wait()]. *)
Definition main_loop_wait : M unit :=
  self ← get_self;
  Event_wait (_shutdown_event (server_state self)) false.

(** ** The date-refresh loop *)

Definition with_default_headers (l : list (bytes * bytes)) (s : ServerState) : ServerState :=
  mkServerState (total_requests s) (connections s) (tasks s) l
    (_event_pool s) (_event_pool_max_size s) (_shutdown_event s) (_cached_date s)
    (_cached_date_time s).

Section DateHeaderLoop.

Variable formatdate : Z -> string.

(** [config.date_header] and [config.encoded_headers]. *)
Variable date_header : bool.
Variable encoded_headers : list (bytes * bytes).

(** An iteration of [Server._update_date_header_loop] up to its wait, with
    [now] the reading of the clock that [get_date_header] takes.  The
    getter never returns [None], which [default] stands in for. *)
Definition rebuild_default_headers (now : Z) : M unit := fun w =>
  let '(current_date, state1, _) :=
    get_date_header formatdate (server_state (w_self w)) now in
  let date :=
    if date_header
    then [(list_byte_of_string "date", default [] current_date)]
    else [] in
  (Ok tt,
   with_self
     (with_server_state (with_default_headers (date ++ encoded_headers) state1) (w_self w))
     w).

(** The body of the [while] loop.  The timeout [max(0.001, wait_time)] is
    never [None]. *)
Definition update_date_header_iter (now : Z) : M ctl :=
  rebuild_default_headers now;;
  self ← get_self;
  try_except
    (wait_for (Event_wait (_shutdown_event (server_state self))) (Some 1);;
     mret Break)
    TimeoutError
    (mret Continue).

(** The loop, given the readings of the clock, one per iteration; it is
    [Pending] when it would need a further reading. *)
Fixpoint update_date_header_loop_on (clock : list Z) : M unit := fun w =>
  if negb (should_exit (w_self w)) then
    match clock with
    | [] => (Pending, w)
    | now :: later =>
        match update_date_header_iter now w with
        | (Ok Continue, w') => update_date_header_loop_on later w'
        | (Ok Break, w') => (Ok tt, w')
        | (Raise e, w') => (Raise e, w')
        | (Pending, w') => (Pending, w')
        end
    end
  else (Ok tt, w).

(** [Server._update_date_header_loop] *)
Definition _update_date_header_loop (clock : list Z) : M unit :=
  try_except (update_date_header_loop_on clock) CancelledError (mret tt).

End DateHeaderLoop.

(** ** What the environment alone does

    [env_only k w]: the world after the first [k] scheduled events acted on
    [w] and no code of the orchestrator ran.  Only the server object and the
    event store can differ from [w]; the trace and the installed handlers
    are the orchestrator's own. *)
Definition env_only (k : nat) (w : World) : World :=
  with_sched (drop k (w_sched w))
    (fold_left (fun w' ev => deliver ev w') (take k (w_sched w)) w).

(** The state in which the monitor leaves [w] when it finds the ceiling
    reached. *)
Definition monitor_fired (limit : Z) (w : World) : World :=
  with_heap (Event_set (_shutdown_event (server_state (w_self w))) (w_heap w))
    (with_self (with_should_exit true (w_self w))
       (with_trace (w_trace w ++ [Log WARNING (max_requests_message limit) []]) w)).

(** The two messages that the drain can log. *)
Definition drain_messages : list effect :=
  [Log INFO "Waiting for connections to close. (CTRL+C to force quit)" [];
   Log INFO "Waiting for background tasks to complete. (CTRL+C to force quit)" []].

(** [only_waited w w']: from [w] to [w'] the coroutine did nothing but wait
    and log messages of the drain; every change of the server object and of
    the event store is the environment's. *)
Definition only_waited (w w' : World) : Prop :=
  ∃ (k : nat) (logs : list effect),
    w' = with_trace (w_trace w ++ logs) (env_only k w) ∧
    Forall (fun e => e ∈ drain_messages) logs.

Definition waits {A} (m : M A) : Prop := ∀ w, only_waited w (m w).2.

(** ** Concrete states for the examples *)

(** [ServerState()] in a process that has allocated no event yet. *)
Definition new_state : ServerState * heap := ServerState_init ∅.

(** The default pool after 1000 events were acquired and released: full. *)
Definition full_state : ServerState * heap :=
  acquire_then_release 1000 new_state.1 new_state.2.

(** A server built by [Server(config)] in a new process, on the main thread
    of a non-Windows platform, with the events [sched] ahead of it. *)
Definition example_world (cfg : Config) (sched : list env_event) : World :=
  let '(s, h) := Server_init cfg ∅ in mkWorld s h ∅ true false [] sched.

(** A started server with one listener, one open connection and two
    background tasks, none of which ends during the events ahead: the sleep
    of [shutdown] passes, two polls of the drain pass, then the deadline of
    2 seconds elapses. *)
Definition busy_world : World :=
  let '(s, h) := Server_init (mkConfig None (Some 2)) ∅ in
  mkWorld
    (with_servers [11%positive]
       (with_server_state
          (with_connections {[3%positive]}
             (with_tasks {[7%positive; 9%positive]} (server_state s)))
          s))
    h ∅ true false []
    [EnvStep id; EnvStep id; EnvStep id; EnvTimeout].

(** A serving process that receives a termination signal and then, while
    it shuts down, an interrupt. *)
Definition signalled_world : World :=
  example_world (mkConfig None None) [EnvSignal SIGTERM; EnvSignal SIGINT].

(** What [serve] runs inside [capture_signals] once the listeners are up:
    the wait of the main loop, then the shutdown. *)
Definition serve_body : M unit := main_loop_wait;; shutdown None.

(** A serving process that receives a termination signal and whose task is
    cancelled while it shuts down. *)
Definition cancelled_world : World :=
  example_world (mkConfig None None) [EnvSignal SIGTERM; EnvCancel].

(** [busy_world] after a second interrupt asked for a forced exit. *)
Definition forced_world : World :=
  with_self (with_force_exit true (w_self busy_world)) busy_world.

(** [busy_world] with a cancellation, not the deadline, ending the drain. *)
Definition cancelled_drain_world : World :=
  with_sched [EnvStep id; EnvStep id; EnvCancel] busy_world.

(** Protocol handlers completing [n] requests. *)
Definition requests_completed (n : Z) (st : Server * heap) : Server * heap :=
  (with_server_state
     (with_total_requests (total_requests (server_state st.1) + n) (server_state st.1))
     st.1,
   st.2).

(** A further event, set by its user, in the store of [full_state]. *)
Definition used_event : ref * heap :=
  let '(e, h) := Event_new full_state.2 in (e, Event_set e h).

(** * Properties *)

(** ** The event pool *)

Lemma Event_new_fresh (h : heap) : h !! (Event_new h).1 = None.
Proof.
  unfold Event_new; simpl.
  apply not_elem_of_dom, is_fresh.
Qed.

Lemma Event_new_unset (h : heap) :
  Event_is_set (Event_new h).1 (Event_new h).2 = Some false.
Proof. unfold Event_is_set, Event_new; simpl. apply lookup_insert_eq. Qed.

Lemma Event_clear_unset (l : ref) (h : heap) : Event_is_set l (Event_clear l h) = Some false.
Proof. apply lookup_insert_eq. Qed.

Lemma Event_set_is_set (l : ref) (h : heap) : Event_is_set l (Event_set l h) = Some true.
Proof. apply lookup_insert_eq. Qed.

Lemma list_pop_snoc {A} (l : list A) (x : A) : list_pop (l ++ [x]) = Some (x, l).
Proof. unfold list_pop. by rewrite last_snoc, removelast_last. Qed.

Lemma list_pop_Some {A} (l rest : list A) (x : A) :
  list_pop l = Some (x, rest) → l = rest ++ [x].
Proof.
  destruct l as [|y l] using rev_ind; [done|].
  rewrite list_pop_snoc. by intros [= -> ->].
Qed.

Lemma list_pop_None {A} (l : list A) : list_pop l = None → l = [].
Proof.
  destruct l as [|y l] using rev_ind; [done|]. by rewrite list_pop_snoc.
Qed.

Lemma acquire_event_empty (self : ServerState) (h : heap) :
  _event_pool self = [] →
  acquire_event self h = ((Event_new h).1, self, (Event_new h).2).
Proof.
  intros E. unfold acquire_event. rewrite E. simpl.
  by destruct (Event_new h).
Qed.

Lemma acquire_event_snoc (self : ServerState) (h : heap) (p : list ref) (e : ref) :
  _event_pool self = p ++ [e] →
  acquire_event self h = (e, with_event_pool p self, Event_clear e h).
Proof.
  intros E. unfold acquire_event. rewrite E, list_pop_snoc.
  rewrite bool_decide_true; [done|]. by destruct p.
Qed.

(** C1: the event that [acquire_event] returns is unset.  With a non-empty
    pool it is the pool's last element, removed from the pool and cleared;
    with an empty pool it is a newly allocated object, no allocated event
    before the call, and the pool stays empty. *)
Theorem acquire_event_returns_unset (self : ServerState) (h : heap) :
  let '(event, self', h') := acquire_event self h in
  Event_is_set event h' = Some false ∧
  match _event_pool self with
  | [] => h !! event = None ∧ self' = self ∧ h' = <[event := false]> h
  | _ :: _ =>
      _event_pool self = _event_pool self' ++ [event] ∧
      self' = with_event_pool (_event_pool self') self ∧
      h' = Event_clear event h
  end.
Proof.
  destruct (_event_pool self) as [|x p] eqn:E.
  - rewrite (acquire_event_empty _ _ E).
    split; [apply Event_new_unset|].
    split; [apply Event_new_fresh|done].
  - destruct (exists_last (l := x :: p)) as (q & e & Eq); [done|].
    rewrite Eq in E. rewrite (acquire_event_snoc _ _ _ _ E).
    split; [apply Event_clear_unset|]. simpl. by rewrite Eq.
Qed.

Lemma release_event_below (self : ServerState) (e : ref) (h : heap) :
  Z.of_nat (length (_event_pool self)) < _event_pool_max_size self →
  release_event self e h = (with_event_pool (_event_pool self ++ [e]) self, Event_clear e h).
Proof. intros H. unfold release_event. by rewrite (proj2 (Z.ltb_lt _ _) H). Qed.

Lemma release_event_full (self : ServerState) (e : ref) (h : heap) :
  _event_pool_max_size self ≤ Z.of_nat (length (_event_pool self)) →
  release_event self e h = (self, h).
Proof. intros H. unfold release_event. by rewrite (proj2 (Z.ltb_ge _ _) H). Qed.

(** C2, as the code has it: [release_event] is total; below the ceiling it
    clears the event and appends it to the pool, and at or above the ceiling
    it changes nothing, neither the pool nor the event's flag. *)
Theorem release_event_spec (self : ServerState) (event : ref) (h : heap) :
  let '(self', h') := release_event self event h in
  if Z.of_nat (length (_event_pool self)) <? _event_pool_max_size self then
    _event_pool self' = _event_pool self ++ [event] ∧
    self' = with_event_pool (_event_pool self') self ∧
    h' = Event_clear event h ∧
    Event_is_set event h' = Some false
  else self' = self ∧ h' = h.
Proof.
  unfold release_event.
  destruct (_ <? _); [|done].
  repeat split. apply Event_clear_unset.
Qed.

(** C2, as the claim has it, fails: releasing a set event into the default
    pool once it holds 1000 events leaves that event set. *)
Lemma release_event_full_pool_keeps_flag :
  length (_event_pool full_state.1) = 1000%nat ∧
  _event_pool_max_size full_state.1 = 1000 ∧
  Event_is_set used_event.1 used_event.2 = Some true ∧
  ¬ (Event_is_set used_event.1 (release_event full_state.1 used_event.1 used_event.2).2
     = Some false).
Proof.
  assert (E : Event_is_set used_event.1
                (release_event full_state.1 used_event.1 used_event.2).2 = Some true)
    by (vm_compute; reflexivity).
  rewrite E.
  repeat split; try (vm_compute; reflexivity). discriminate.
Qed.

(** *** Size of the pool *)

Lemma acquire_event_pool_length (self : ServerState) (h : heap) :
  (length (_event_pool (acquire_event self h).1.2) ≤ length (_event_pool self))%nat.
Proof.
  destruct (_event_pool self) as [|x p] eqn:E.
  - rewrite (acquire_event_empty _ _ E). simpl. rewrite E. done.
  - destruct (exists_last (l := x :: p)) as (q & e & Eq); [done|].
    rewrite Eq in E |- *. rewrite (acquire_event_snoc _ _ _ _ E).
    cbn [fst snd with_event_pool _event_pool]. rewrite length_app. simpl. lia.
Qed.

Lemma acquire_event_max_size (self : ServerState) (h : heap) :
  _event_pool_max_size (acquire_event self h).1.2 = _event_pool_max_size self.
Proof.
  unfold acquire_event.
  destruct (bool_decide _); [destruct (list_pop _) as [[e r]|]|];
    simpl; try done; by destruct (Event_new h).
Qed.

Lemma release_event_max_size (self : ServerState) (e : ref) (h : heap) :
  _event_pool_max_size (release_event self e h).1 = _event_pool_max_size self.
Proof. unfold release_event. by destruct (_ <? _). Qed.

Lemma release_event_pool_length (self : ServerState) (e : ref) (h : heap) :
  Z.of_nat (length (_event_pool self)) ≤ _event_pool_max_size self →
  Z.of_nat (length (_event_pool (release_event self e h).1)) ≤ _event_pool_max_size self.
Proof.
  intros H. unfold release_event.
  destruct (_ <? _) eqn:E; [|done].
  apply Z.ltb_lt in E. simpl. rewrite length_app. simpl. lia.
Qed.

Lemma pool_step_invariant (st : ServerState * heap) (op : pool_op) :
  pool_within_capacity st →
  pool_within_capacity (pool_step st op) ∧
  _event_pool_max_size (pool_step st op).1 = _event_pool_max_size st.1.
Proof.
  unfold pool_within_capacity. intros H. destruct st as [self h], op as [|e|e]; simpl in *.
  - pose proof (acquire_event_pool_length self h) as L.
    pose proof (acquire_event_max_size self h) as C.
    destruct (acquire_event self h) as [[ev s'] h']. simpl in *. split; [lia|done].
  - rewrite release_event_max_size. split; [|done]. by apply release_event_pool_length.
  - done.
Qed.

Lemma pool_run_invariant (ops : list pool_op) (st : ServerState * heap) :
  pool_within_capacity st →
  pool_within_capacity (pool_run ops st) ∧
  _event_pool_max_size (pool_run ops st).1 = _event_pool_max_size st.1.
Proof.
  revert st. induction ops as [|op ops IH]; intros st H; [done|].
  simpl. destruct (pool_step_invariant st op H) as [H1 H2].
  destruct (IH _ H1) as [H3 H4]. split; [done|congruence].
Qed.

Lemma acquire_many_empty (n : nat) (self : ServerState) (h : heap) :
  _event_pool self = [] →
  length (acquire_many n self h).1.1 = n ∧ (acquire_many n self h).1.2 = self.
Proof.
  intros E. revert h. induction n as [|n IH]; intros h; [done|].
  simpl. rewrite (acquire_event_empty _ _ E).
  specialize (IH (Event_new h).2).
  destruct (acquire_many n self (Event_new h).2) as [[es s2] h2]. simpl in *.
  destruct IH as [-> ->]. done.
Qed.

Lemma release_all_length (es : list ref) (self : ServerState) (h : heap) :
  0 ≤ _event_pool_max_size self →
  pool_within_capacity (self, h) →
  Z.of_nat (length (_event_pool (release_all es self h).1))
  = Z.min (Z.of_nat (length (_event_pool self) + length es)) (_event_pool_max_size self).
Proof.
  unfold pool_within_capacity. simpl.
  revert self h. induction es as [|e es IH]; intros self h H0 H; simpl.
  - rewrite Nat.add_0_r. lia.
  - destruct (Z_lt_le_dec (Z.of_nat (length (_event_pool self))) (_event_pool_max_size self))
      as [Hlt|Hge].
    + rewrite (release_event_below _ _ _ Hlt).
      rewrite IH; simpl; rewrite ?length_app; simpl; lia.
    + rewrite (release_event_full _ _ _ Hge).
      rewrite IH; lia.
Qed.

(** Acquiring [n] events from an empty pool and releasing them fills the
    pool up to the ceiling and no further. *)
Lemma acquire_then_release_length (n : nat) (self : ServerState) (h : heap) :
  0 ≤ _event_pool_max_size self →
  _event_pool self = [] →
  Z.of_nat (length (_event_pool (acquire_then_release n self h).1))
  = Z.min (Z.of_nat n) (_event_pool_max_size self).
Proof.
  intros H0 E. unfold acquire_then_release.
  destruct (acquire_many_empty n self h E) as [L S].
  destruct (acquire_many n self h) as [[es s1] h1]. simpl in L, S. subst s1.
  rewrite release_all_length; [|done|].
  - rewrite E, L. done.
  - unfold pool_within_capacity. simpl. rewrite E. simpl. lia.
Qed.

(** C3: starting from an empty pool with a non-negative ceiling, no sequence
    of acquire, release and use operations makes the pool larger than the
    ceiling; and acquiring 1500 events from a new [ServerState], then
    releasing each of them, leaves exactly 1000 events in the pool. *)
Theorem event_pool_size_bounded (self : ServerState) (h : heap) (ops : list pool_op) :
  0 ≤ _event_pool_max_size self →
  _event_pool self = [] →
  Z.of_nat (length (_event_pool (pool_run ops (self, h)).1)) ≤ _event_pool_max_size self ∧
  ∀ h0 : heap,
    length (_event_pool
              (acquire_then_release 1500 (ServerState_init h0).1 (ServerState_init h0).2).1)
    = 1000%nat.
Proof.
  intros H0 E. split.
  - assert (I : pool_within_capacity (self, h)).
    { unfold pool_within_capacity. simpl. rewrite E. simpl. lia. }
    destruct (pool_run_invariant ops _ I) as [H1 H2].
    unfold pool_within_capacity in H1. simpl in H2. lia.
  - intros h0.
    pose proof (acquire_then_release_length 1500 (ServerState_init h0).1
                  (ServerState_init h0).2) as R.
    assert (E0 : _event_pool (ServerState_init h0).1 = [])
      by (unfold ServerState_init; by destruct (Event_new h0)).
    assert (C0 : _event_pool_max_size (ServerState_init h0).1 = 1000)
      by (unfold ServerState_init; by destruct (Event_new h0)).
    rewrite C0 in R. specialize (R ltac:(lia) E0). lia.
Qed.

Lemma event_pool_size_bounded_witness :
  Z.of_nat (length (_event_pool
     (pool_run [Acquire; Release 7; Release 8; Release 7; Acquire; Release 9]
        (with_event_pool_max_size 2 new_state.1, new_state.2)).1)) ≤ 2 ∧
  ∀ h0 : heap,
    length (_event_pool
              (acquire_then_release 1500 (ServerState_init h0).1 (ServerState_init h0).2).1)
    = 1000%nat.
Proof.
  apply (event_pool_size_bounded (with_event_pool_max_size 2 new_state.1) new_state.2
           [Acquire; Release 7; Release 8; Release 7; Acquire; Release 9]%positive).
  - vm_compute. discriminate.
  - vm_compute. reflexivity.
Defined.

(** The pool of that run, computed: the ceiling 2 is reached and kept. *)
Example event_pool_small_run :
  _event_pool
    (pool_run [Acquire; Release 7; Release 8; Release 7; Acquire; Release 9]
       (with_event_pool_max_size 2 new_state.1, new_state.2)).1
  = [7; 9]%positive.
Proof. vm_compute. reflexivity. Qed.

(** C10: the pool does not look at the identity of what is released.  Two
    releases of one event while the pool stays below the ceiling add two
    slots that hold that same object, and the next two acquisitions both
    return it. *)
Theorem release_event_twice_aliases (self : ServerState) (event : ref) (h : heap) :
  Z.of_nat (length (_event_pool self)) + 1 < _event_pool_max_size self →
  let '(self1, h1) := release_event self event h in
  let '(self2, h2) := release_event self1 event h1 in
  let '(first, self3, h3) := acquire_event self2 h2 in
  let '(second, self4, h4) := acquire_event self3 h3 in
  _event_pool self2 = _event_pool self ++ [event; event] ∧
  length (_event_pool self2) = (length (_event_pool self) + 2)%nat ∧
  first = event ∧ second = event ∧
  _event_pool self4 = _event_pool self.
Proof.
  intros H.
  rewrite release_event_below by lia.
  rewrite release_event_below by (simpl; rewrite length_app; simpl; lia).
  simpl.
  rewrite (acquire_event_snoc _ _ ((_event_pool self ++ [event])) event) by done.
  rewrite (acquire_event_snoc _ _ (_event_pool self) event) by done.
  simpl. rewrite <- app_assoc. simpl.
  repeat split; try done. rewrite length_app. simpl. lia.
Qed.

Lemma release_event_twice_aliases_witness :
  let '(e, self, h) := acquire_event new_state.1 new_state.2 in
  let '(self1, h1) := release_event self e h in
  let '(self2, h2) := release_event self1 e h1 in
  let '(first, self3, h3) := acquire_event self2 h2 in
  let '(second, self4, h4) := acquire_event self3 h3 in
  _event_pool self2 = _event_pool self ++ [e; e] ∧
  length (_event_pool self2) = (length (_event_pool self) + 2)%nat ∧
  first = e ∧ second = e ∧
  _event_pool self4 = _event_pool self.
Proof.
  apply (release_event_twice_aliases new_state.1 2%positive
           (acquire_event new_state.1 new_state.2).2).
  vm_compute. reflexivity.
Defined.

(** ** The date header cache *)

Section DateHeaderCacheFacts.

Variable formatdate : Z -> string.

(** A call in the second the cache was filled for formats nothing and
    changes nothing. *)
Lemma get_date_header_hit (self : ServerState) (t : Z) (v : bytes) :
  _cached_date self = Some v →
  _cached_date_time self = t →
  get_date_header formatdate self t = (Some v, self, []).
Proof.
  intros Hv Ht. unfold get_date_header.
  rewrite Ht, Z.eqb_refl, Hv. simpl. by rewrite Hv.
Qed.

(** A call in any other second formats once and stores the result. *)
Lemma get_date_header_miss (self : ServerState) (t : Z) :
  _cached_date_time self ≠ t →
  get_date_header formatdate self t
  = (Some (encode (formatdate t)),
     with_cached_date (Some (encode (formatdate t))) t self, [t]).
Proof.
  intros Ht. unfold get_date_header.
  destruct (Z.eqb_spec t (_cached_date_time self)) as [->|_]; [done|]. done.
Qed.

(** Whatever the state, after a call at [t] the cache holds a value for [t]. *)
Lemma get_date_header_fills (self : ServerState) (t : Z) :
  ∃ v, (get_date_header formatdate self t).1.1 = Some v ∧
       _cached_date (get_date_header formatdate self t).1.2 = Some v ∧
       _cached_date_time (get_date_header formatdate self t).1.2 = t ∧
       (length (get_date_header formatdate self t).2 ≤ 1)%nat.
Proof.
  unfold get_date_header.
  destruct (Z.eqb_spec t (_cached_date_time self)) as [E|E]; simpl.
  - destruct (_cached_date self) as [v|] eqn:Hv; simpl.
    + exists v. rewrite Hv. repeat split; [done|lia].
    + eexists. repeat split. lia.
  - eexists. repeat split. lia.
Qed.

Lemma get_date_header_seq_hits (self : ServerState) (t : Z) (v : bytes) (n : nat) :
  _cached_date self = Some v →
  _cached_date_time self = t →
  get_date_header_seq formatdate (repeat t n) self = (repeat (Some v) n, self, []).
Proof.
  intros Hv Ht. induction n as [|n IH]; [done|].
  simpl. rewrite (get_date_header_hit _ _ _ Hv Ht), IH. done.
Qed.

(** C4: any number of calls made in one epoch second [t] return the same
    bytes and call [formatdate] at most once between them; the next call,
    made in another second [t'], calls [formatdate] for [t'] and stores
    its result together with [t']. *)
Theorem get_date_header_once_per_second
    (self : ServerState) (t t' : Z) (n : nat) :
  t' ≠ t →
  let '(vs, self1, calls) := get_date_header_seq formatdate (repeat t (S n)) self in
  let '(v', self2, calls') := get_date_header formatdate self1 t' in
  (∃ v, vs = repeat (Some v) (S n)) ∧
  (length calls ≤ 1)%nat ∧
  v' = Some (encode (formatdate t')) ∧
  calls' = [t'] ∧
  _cached_date self2 = Some (encode (formatdate t')) ∧
  _cached_date_time self2 = t'.
Proof.
  intros Hne. simpl.
  destruct (get_date_header_fills self t) as (v & H1 & H2 & H3 & H4).
  destruct (get_date_header formatdate self t) as [[v0 s1] c1]. simpl in *.
  rewrite (get_date_header_seq_hits s1 t v n H2 H3).
  rewrite get_date_header_miss by congruence.
  subst v0. split; [by exists v|]. rewrite app_nil_r. done.
Qed.

End DateHeaderCacheFacts.

Lemma get_date_header_once_per_second_witness :
  let fmt := fun t : Z => ("epoch " +:+ pretty t)%string in
  let '(vs, self1, calls) :=
    get_date_header_seq fmt (repeat 1704067200 3) new_state.1 in
  let '(v', self2, calls') := get_date_header fmt self1 1704067201 in
  (∃ v, vs = repeat (Some v) 3) ∧
  (length calls ≤ 1)%nat ∧
  v' = Some (encode (fmt 1704067201)) ∧
  calls' = [1704067201] ∧
  _cached_date self2 = Some (encode (fmt 1704067201)) ∧
  _cached_date_time self2 = 1704067201.
Proof.
  apply (get_date_header_once_per_second
           (fun t : Z => ("epoch " +:+ pretty t)%string) new_state.1
           1704067200 1704067201 2).
  lia.
Defined.

(** ** The signal handler *)

Lemma with_sched_same (w : World) : with_sched (w_sched w) w = w.
Proof. by destruct w. Qed.

(** A coroutine that waits for an event that is set goes on at once. *)
Lemma Event_wait_set (l : ref) (armed : bool) (w : World) :
  Event_is_set l (w_heap w) = Some true → Event_wait l armed w = (Ok tt, w).
Proof.
  intros H. unfold Event_wait.
  destruct (w_sched w) eqn:E; simpl;
    rewrite bool_decide_true by done; by rewrite <- E, with_sched_same.
Qed.

(** C6: [handle_exit] appends the signal number to the captured signals,
    leaves [should_exit] true, sets [force_exit] exactly when [should_exit]
    was true already and the signal is the interrupt (and never clears it),
    and sets the shutdown event, so that a coroutine waiting for that event
    goes on without suspending. *)
Theorem handle_exit_spec (self : Server) (sig : Z) (h : heap) :
  let '(self', h') := handle_exit self sig h in
  _captured_signals self' = _captured_signals self ++ [sig] ∧
  should_exit self' = true ∧
  force_exit self' = force_exit self || (should_exit self && (sig =? SIGINT)) ∧
  server_state self' = server_state self ∧
  h' = Event_set (_shutdown_event (server_state self)) h ∧
  Event_is_set (_shutdown_event (server_state self')) h' = Some true ∧
  ∀ (armed : bool) (w : World),
    Event_wait (_shutdown_event (server_state self')) armed (with_heap h' w)
    = (Ok tt, with_heap h' w).
Proof.
  unfold handle_exit. simpl.
  assert (F : ∀ s', server_state s' = server_state self →
     Event_is_set (_shutdown_event (server_state s'))
       (Event_set (_shutdown_event (server_state s')) h) = Some true)
    by (intros; apply Event_set_is_set).
  destruct (should_exit self) eqn:Es, (sig =? SIGINT) eqn:Ei; simpl;
    repeat split; try done; try (by rewrite orb_true_r); try (by rewrite orb_false_r);
    try apply Event_set_is_set;
    intros armed w; apply Event_wait_set; apply Event_set_is_set.
Qed.

Lemma handle_exit_force_exit (self : Server) (sig : Z) (h : heap) :
  force_exit (handle_exit self sig h).1
  = force_exit self || (should_exit self && (sig =? SIGINT)).
Proof.
  unfold handle_exit. simpl.
  destruct (should_exit self), (sig =? SIGINT); simpl;
    by rewrite ?orb_true_r, ?orb_false_r.
Qed.

Lemma handle_exit_seq_no_force (sigs : list Z) (st : Server * heap) :
  force_exit st.1 = false →
  no_interrupt_while_exiting sigs st = true →
  force_exit (handle_exit_seq sigs st).1 = false.
Proof.
  revert st. induction sigs as [|sig sigs IH]; intros st F H; [done|].
  simpl in H. apply andb_prop in H as [H1 H2].
  simpl. apply IH; [|done].
  rewrite handle_exit_force_exit, F. simpl.
  by destruct (should_exit st.1 && (sig =? SIGINT)).
Qed.

Lemma handle_exit_should_exit (self : Server) (sig : Z) (h : heap) :
  should_exit (handle_exit self sig h).1 = true.
Proof.
  unfold handle_exit. simpl.
  by destruct (should_exit self) eqn:E, (sig =? SIGINT); simpl.
Qed.

Lemma handle_exit_seq_no_sigint (sigs : list Z) (st : Server * heap) :
  SIGINT ∉ sigs → no_interrupt_while_exiting sigs st = true.
Proof.
  revert st. induction sigs as [|sig sigs IH]; intros st H; [done|].
  simpl. apply not_elem_of_cons in H as [H1 H2].
  rewrite IH by done.
  destruct (Z.eqb_spec sig SIGINT) as [->|_]; [done|]. by rewrite andb_false_r.
Qed.

(** C9: over any sequence of deliveries to [handle_exit] that starts with
    [force_exit] unset, [force_exit] stays unset when no interrupt arrives
    while [should_exit] is set; in particular signals other than the
    interrupt never set it, however many arrive. *)
Theorem force_exit_only_by_second_interrupt (sigs : list Z) (self : Server) (h : heap) :
  force_exit self = false →
  no_interrupt_while_exiting sigs (self, h) = true ∨ SIGINT ∉ sigs →
  force_exit (handle_exit_seq sigs (self, h)).1 = false.
Proof.
  intros F [H|H]; apply handle_exit_seq_no_force; try done.
  by apply handle_exit_seq_no_sigint.
Qed.

Lemma force_exit_only_by_second_interrupt_witness :
  force_exit (handle_exit_seq [SIGINT; SIGTERM; SIGBREAK; SIGTERM]
                (Server_init (mkConfig None None) ∅)).1 = false.
Proof.
  apply (force_exit_only_by_second_interrupt [SIGINT; SIGTERM; SIGBREAK; SIGTERM]
           (Server_init (mkConfig None None) ∅).1 (Server_init (mkConfig None None) ∅).2).
  - reflexivity.
  - left. reflexivity.
Defined.

(** The second interrupt of two does set it. *)
Example force_exit_second_interrupt :
  force_exit (handle_exit_seq [SIGINT; SIGINT] (Server_init (mkConfig None None) ∅)).1 = true.
Proof. reflexivity. Qed.

(** ** The max-requests monitor *)

Lemma deliver_with_sched (ev : env_event) (l : list env_event) (w : World) :
  deliver ev (with_sched l w) = with_sched l (deliver ev w).
Proof.
  destruct ev as [f|sig| |]; simpl; try done.
  - by destruct (f (w_self w, w_heap w)).
  - unfold getsignal. simpl. by destruct (default SIG_DFL (w_handlers w !! sig)).
Qed.

Lemma deliver_trace (ev : env_event) (w : World) : w_trace (deliver ev w) = w_trace w.
Proof.
  destruct ev as [f|sig| |]; simpl; try done.
  - by destruct (f (w_self w, w_heap w)).
  - by destruct (getsignal sig w).
Qed.

Lemma deliver_handlers (ev : env_event) (w : World) :
  w_handlers (deliver ev w) = w_handlers w.
Proof.
  destruct ev as [f|sig| |]; simpl; try done.
  - by destruct (f (w_self w, w_heap w)).
  - by destruct (getsignal sig w).
Qed.

(** The environment writes neither to the trace nor to the handler table. *)
Lemma env_only_trace (k : nat) (w : World) : w_trace (env_only k w) = w_trace w.
Proof.
  unfold env_only. simpl.
  generalize (take k (w_sched w)). intros evs. revert w.
  induction evs as [|ev evs IH]; intros w; [done|].
  simpl. by rewrite IH, deliver_trace.
Qed.

Lemma env_only_handlers (k : nat) (w : World) :
  w_handlers (env_only k w) = w_handlers w.
Proof.
  unfold env_only. simpl.
  generalize (take k (w_sched w)). intros evs. revert w.
  induction evs as [|ev evs IH]; intros w; [done|].
  simpl. by rewrite IH, deliver_handlers.
Qed.

(** Waiting for an event runs no code of the waiting coroutine: whatever
    the outcome, the world is the one the environment made. *)
Lemma Event_wait_on_env (armed : bool) (l : ref) (sched : list env_event) (w : World) :
  ∃ k, (Event_wait_on armed l sched w).2
       = with_sched (drop k sched) (fold_left (fun w' ev => deliver ev w') (take k sched) w).
Proof.
  revert w. induction sched as [|ev sched IH]; intros w.
  - exists 0%nat. simpl. by destruct (bool_decide _).
  - simpl. destruct (bool_decide _); [by exists 0%nat|].
    destruct ev as [f|sig| |].
    + destruct (IH (deliver (EnvStep f) w)) as [k Hk]. exists (S k). by rewrite Hk.
    + destruct (IH (deliver (EnvSignal sig) w)) as [k Hk]. exists (S k). by rewrite Hk.
    + destruct armed; [by exists 1%nat|].
      destruct (IH w) as [k Hk]. exists (S k). by rewrite Hk.
    + by exists 1%nat.
Qed.

Lemma Event_wait_env (armed : bool) (l : ref) (w : World) :
  ∃ k, (Event_wait l armed w).2 = env_only k w.
Proof. apply Event_wait_on_env. Qed.

(** Waiting ends in one of four ways. *)
Lemma Event_wait_on_result (armed : bool) (l : ref) (sched : list env_event) (w : World) :
  (Event_wait_on armed l sched w).1 = Ok tt ∨
  (Event_wait_on armed l sched w).1 = Raise TimeoutError ∨
  (Event_wait_on armed l sched w).1 = Raise CancelledError ∨
  (Event_wait_on armed l sched w).1 = Pending.
Proof.
  revert w. induction sched as [|ev sched IH]; intros w; simpl.
  - destruct (bool_decide _); auto.
  - destruct (bool_decide _); [auto|].
    destruct ev as [f|sig| |]; try apply IH; [|auto].
    destruct armed; [auto|apply IH].
Qed.

(** C5: one iteration of the monitor's loop, with the ceiling [limit]
    configured.  When [total_requests] has reached [limit] the iteration
    logs a warning, sets [should_exit], sets the shutdown event and leaves
    the loop.  When [total_requests] is below [limit] the iteration only
    waits: it writes nothing to the trace, and the world it ends in is the
    one the environment's events alone produce, so neither [should_exit]
    nor the shutdown event is set by the monitor. *)
Theorem check_max_requests_iter_spec (w : World) (limit : Z) :
  limit_max_requests (config (w_self w)) = Some limit →
  let '(r, w') := check_max_requests_iter w in
  if total_requests (server_state (w_self w)) >=? limit then
    r = Ok Break ∧
    w' = monitor_fired limit w ∧
    should_exit (w_self w') = true ∧
    Event_is_set (_shutdown_event (server_state (w_self w'))) (w_heap w') = Some true ∧
    w_trace w' = w_trace w ++ [Log WARNING (max_requests_message limit) []]
  else
    (∃ k, w' = env_only k w) ∧
    w_trace w' = w_trace w ∧
    (r = Ok Break ∨ r = Ok Continue ∨ r = Raise CancelledError ∨ r = Pending).
Proof.
  intros Hl. unfold check_max_requests_iter, mbind, M_bind, get_self. simpl.
  rewrite Hl.
  destruct (total_requests (server_state (w_self w)) >=? limit) eqn:E; simpl.
  - repeat split. apply Event_set_is_set.
  - unfold try_except, wait_for. simpl.
    set (ev := _shutdown_event (server_state (w_self w))).
    destruct (Event_wait_env true ev w) as [k Hk].
    pose proof (Event_wait_on_result true ev (w_sched w) w) as Hr.
    unfold Event_wait in *.
    destruct (Event_wait_on true ev (w_sched w) w) as [r w1]. simpl in *. subst w1.
    destruct Hr as [ -> | [ -> | [ -> | -> ] ] ]; simpl;
      (split; [by exists k|]); (split; [apply env_only_trace|]); auto.
Qed.

Lemma check_max_requests_iter_spec_witness :
  let w := env_only 1 (example_world (mkConfig (Some 5) None)
                         [EnvStep (requests_completed 5)]) in
  let '(r, w') := check_max_requests_iter w in
  if total_requests (server_state (w_self w)) >=? 5 then
    r = Ok Break ∧
    w' = monitor_fired 5 w ∧
    should_exit (w_self w') = true ∧
    Event_is_set (_shutdown_event (server_state (w_self w'))) (w_heap w') = Some true ∧
    w_trace w' = w_trace w ++ [Log WARNING (max_requests_message 5) []]
  else
    (∃ k, w' = env_only k w) ∧
    w_trace w' = w_trace w ∧
    (r = Ok Break ∨ r = Ok Continue ∨ r = Raise CancelledError ∨ r = Pending).
Proof.
  apply (check_max_requests_iter_spec
           (env_only 1 (example_world (mkConfig (Some 5) None)
                          [EnvStep (requests_completed 5)])) 5).
  reflexivity.
Defined.

(** Scenario B of the specification: with a ceiling of 5 and five requests
    completed while the monitor waits, the monitor ends the serving phase. *)
Example check_max_requests_five_requests :
  let r := _check_max_requests
             (example_world (mkConfig (Some 5) None)
                [EnvStep (requests_completed 2); EnvTimeout;
                 EnvStep (requests_completed 3); EnvTimeout; EnvTimeout]) in
  r.1 = Ok tt ∧
  should_exit (w_self r.2) = true ∧
  Event_is_set (_shutdown_event (server_state (w_self r.2))) (w_heap r.2) = Some true ∧
  w_trace r.2 = [Log WARNING "Maximum request limit of 5 exceeded. Terminating process." []].
Proof. vm_compute. done. Qed.

(** Below the ceiling the monitor sets nothing, however long it runs. *)
Example check_max_requests_below_ceiling :
  let r := _check_max_requests
             (example_world (mkConfig (Some 5) None)
                [EnvStep (requests_completed 2); EnvTimeout;
                 EnvStep (requests_completed 2); EnvTimeout; EnvTimeout]) in
  r.1 = Pending ∧
  should_exit (w_self r.2) = false ∧
  Event_is_set (_shutdown_event (server_state (w_self r.2))) (w_heap r.2) = Some false ∧
  w_trace r.2 = [].
Proof. vm_compute. done. Qed.

Lemma fold_deliver_with_sched (evs l : list env_event) (w : World) :
  fold_left (fun w' ev => deliver ev w') evs (with_sched l w)
  = with_sched l (fold_left (fun w' ev => deliver ev w') evs w).
Proof.
  revert w. induction evs as [|ev evs IH]; intros w; [done|].
  simpl. by rewrite deliver_with_sched, IH.
Qed.

Lemma env_only_0 (w : World) : env_only 0 w = w.
Proof. unfold env_only. simpl. apply with_sched_same. Qed.

Lemma env_only_sched (k : nat) (w : World) : w_sched (env_only k w) = drop k (w_sched w).
Proof. done. Qed.

Lemma env_only_add (k1 k2 : nat) (w : World) :
  env_only k2 (env_only k1 w) = env_only (k1 + k2) w.
Proof.
  unfold env_only at 1. rewrite env_only_sched.
  unfold env_only. rewrite fold_deliver_with_sched. simpl.
  rewrite drop_drop, <- (take_take_drop _ k1 k2), fold_left_app. done.
Qed.

#[local] Opaque env_only monitor_fired.

(** Every world the monitor can end in: either the environment alone made
    it, or the environment made a world in which the ceiling was reached and
    the monitor fired there. *)
Lemma check_max_requests_iter_outcome (w : World) :
  (∃ k, (check_max_requests_iter w).2 = env_only k w) ∨
  (∃ limit, limit_max_requests (config (w_self w)) = Some limit ∧
            limit ≤ total_requests (server_state (w_self w)) ∧
            (check_max_requests_iter w).1 = Ok Break ∧
            (check_max_requests_iter w).2 = monitor_fired limit w).
Proof.
  unfold check_max_requests_iter, mbind, M_bind, get_self. simpl.
  destruct (limit_max_requests (config (w_self w))) as [limit|] eqn:Hl.
  - destruct (Z.geb_spec (total_requests (server_state (w_self w))) limit) as [Hge|Hlt];
      simpl.
    + right. exists limit. repeat split; try done; lia.
    + left. unfold try_except, wait_for. simpl.
      destruct (Event_wait_env true (_shutdown_event (server_state (w_self w))) w)
        as [k Hk].
      pose proof (Event_wait_on_result true (_shutdown_event (server_state (w_self w)))
                    (w_sched w) w) as Hr.
      unfold Event_wait in *.
      destruct (Event_wait_on true _ (w_sched w) w) as [r w1]. simpl in *. subst w1.
      exists k. by destruct Hr as [ -> | [ -> | [ -> | -> ] ] ].
  - left. exists 0%nat. simpl. by rewrite env_only_0.
Qed.

Lemma check_max_requests_loop_outcome (fuel : nat) (w : World) :
  let w' := (loop_ fuel (fun self => negb (should_exit self)) check_max_requests_iter w).2 in
  (∃ k, w' = env_only k w) ∨
  (∃ k limit,
     limit_max_requests (config (w_self (env_only k w))) = Some limit ∧
     limit ≤ total_requests (server_state (w_self (env_only k w))) ∧
     should_exit (w_self (env_only k w)) = false ∧
     w' = monitor_fired limit (env_only k w)).
Proof.
  revert w. induction fuel as [|fuel IH]; intros w; simpl.
  - left. exists 0%nat. by rewrite env_only_0.
  - destruct (should_exit (w_self w)) eqn:Ex; simpl.
    + left. exists 0%nat. by rewrite env_only_0.
    + destruct (check_max_requests_iter_outcome w) as [[k Hk]|(limit & H1 & H2 & H3 & H4)].
      * destruct (check_max_requests_iter w) as [[[]| |] w1]; simpl in *; subst w1;
          try (left; by exists k).
        destruct (IH (env_only k w)) as [[k' Hk']|(k' & limit & H1 & H2 & H3 & H4)].
        -- left. exists (k + k')%nat. by rewrite <- env_only_add.
        -- right. exists (k + k')%nat, limit. rewrite <- env_only_add. by repeat split.
      * destruct (check_max_requests_iter w) as [r w1]. simpl in *. subst r w1.
        right. exists 0%nat, limit. rewrite env_only_0. by repeat split.
Qed.

(** X14: the whole monitor.  However long it runs and whatever the
    environment does meanwhile, [_check_max_requests] ends either in a world
    that the environment alone made, or in the world it made by firing (the
    warning, [should_exit], the shutdown event) at a moment when
    [total_requests] had reached the ceiling and [should_exit] was unset. *)
Lemma check_max_requests_sets_only_at_ceiling (w : World) :
  let w' := (_check_max_requests w).2 in
  (∃ k, w' = env_only k w) ∨
  (∃ k limit,
     limit_max_requests (config (w_self (env_only k w))) = Some limit ∧
     limit ≤ total_requests (server_state (w_self (env_only k w))) ∧
     should_exit (w_self (env_only k w)) = false ∧
     w' = monitor_fired limit (env_only k w)).
Proof.
  pose proof (check_max_requests_loop_outcome (S (length (w_sched w))) w) as H.
  unfold _check_max_requests, try_except, while_.
  destruct (loop_ _ _ _ w) as [[[]|e|] w1]; try exact H.
  destruct (exn_eqb e CancelledError); exact H.
Qed.

#[local] Transparent env_only monitor_fired.

(** ** Effects of loops over lists *)

Lemma with_trace_same (w : World) : with_trace (w_trace w) w = w.
Proof. by destruct w. Qed.

Lemma with_trace_with_trace (t1 t2 : list effect) (w : World) :
  with_trace t1 (with_trace t2 w) = with_trace t1 w.
Proof. done. Qed.

Lemma emit_eq (e : effect) (w : World) :
  emit e w = (Ok tt, with_trace (w_trace w ++ [e]) w).
Proof. done. Qed.

Lemma for_each_emit {A} (f : A → effect) (l : list A) (w : World) :
  for_each l (fun x => emit (f x)) w = (Ok tt, with_trace (w_trace w ++ map f l) w).
Proof.
  revert w. induction l as [|x l IH]; intros w.
  - simpl. unfold mret, M_ret. by rewrite app_nil_r, with_trace_same.
  - simpl. unfold mbind, M_bind, emit. rewrite IH. simpl.
    by rewrite <- app_assoc.
Qed.

(** ** Signal capture *)

Lemma restore_handlers_spec (l : list (Z * handler)) (w : World) :
  restore_handlers l w
  = (Ok tt,
     with_trace (w_trace w ++ map (fun p => SignalInstall p.1 p.2) l)
       (with_handlers (fold_left (fun t p => <[p.1 := p.2]> t) l (w_handlers w)) w)).
Proof.
  unfold restore_handlers. revert w. induction l as [|[sig h] l IH]; intros w.
  - simpl. unfold mret, M_ret. rewrite app_nil_r. by destruct w.
  - simpl. unfold mbind, M_bind, signal_signal. simpl. rewrite IH. simpl.
    by rewrite <- app_assoc.
Qed.

Lemma HANDLED_SIGNALS_cases (win32 : bool) :
  HANDLED_SIGNALS win32 = [2; 15] ∨ HANDLED_SIGNALS win32 = [2; 15; 21].
Proof. destruct win32; auto. Qed.

(** What [install_handlers] returns and leaves behind, for the two values
    that [HANDLED_SIGNALS] takes. *)
Lemma install_handlers_spec (win32 : bool) (w : World) :
  install_handlers (HANDLED_SIGNALS win32) w
  = (Ok (map (fun sig => (sig, getsignal sig w)) (HANDLED_SIGNALS win32)),
     with_trace
       (w_trace w ++ map (fun sig => SignalInstall sig self_handle_exit) (HANDLED_SIGNALS win32))
       (with_handlers
          (fold_left (fun t sig => <[sig := self_handle_exit]> t) (HANDLED_SIGNALS win32)
             (w_handlers w))
          w)).
Proof.
  destruct win32; unfold HANDLED_SIGNALS, SIGINT, SIGTERM, SIGBREAK; simpl;
    unfold mbind, M_bind, signal_signal, getsignal; simpl;
    rewrite ?lookup_insert_ne by done; rewrite <- ?app_assoc; done.
Qed.

Lemma getsignal_restored (win32 : bool) (orig t : gmap Z handler) :
  Forall
    (fun sig =>
       default SIG_DFL
         (fold_left (fun t p => <[p.1 := p.2]> t)
            (map (fun sig => (sig, default SIG_DFL (orig !! sig))) (HANDLED_SIGNALS win32))
            t !! sig)
       = default SIG_DFL (orig !! sig))
    (HANDLED_SIGNALS win32).
Proof.
  destruct win32; unfold HANDLED_SIGNALS, SIGINT, SIGTERM, SIGBREAK; simpl;
    repeat constructor; simpl;
    rewrite ?lookup_insert_eq, ?lookup_insert_ne by done;
    rewrite ?lookup_insert_eq, ?lookup_insert_ne by done;
    rewrite ?lookup_insert_eq, ?lookup_insert_ne by done; done.
Qed.



(** The calls of that run, in order: both handlers installed, the shutdown
    (forced by the interrupt, so without the lifespan handshake), both
    handlers put back, then the interrupt and the termination signal raised
    again, the later one first. *)
Example capture_signals_two_signals :
  w_trace (capture_signals serve_body signalled_world).2
  = [SignalInstall 2 self_handle_exit; SignalInstall 15 self_handle_exit;
     Log INFO "Shutting down" [];
     SignalInstall 2 SIG_DFL; SignalInstall 15 SIG_DFL;
     RaiseSignal 2; RaiseSignal 15].
Proof. vm_compute. reflexivity. Qed.

(** ** Graceful shutdown *)

(** A suspension outside any [wait_for] never ends in a timeout. *)
Lemma suspend_on_unarmed (sched : list env_event) (w : World) :
  (suspend_on false sched w).1 ≠ Raise TimeoutError.
Proof.
  revert w. induction sched as [|ev sched IH]; intros w; simpl; [done|].
  destruct ev; simpl; try done; apply IH.
Qed.

(** The first phase of [shutdown] makes its calls in a fixed order and then
    sleeps. *)
Lemma shutdown_stop_accepting_spec (sockets : option (list positive)) (w : World) :
  shutdown_stop_accepting sockets w
  = suspend false
      (with_trace
         (w_trace w
          ++ [Log INFO "Shutting down" []]
          ++ map ListenerClose (servers (w_self w))
          ++ map SocketClose (default [] sockets)
          ++ map ConnectionShutdown (elements (connections (server_state (w_self w)))))
         w).
Proof.
  unfold shutdown_stop_accepting, log, mbind, M_bind, get_self.
  rewrite emit_eq. cbn [w_self with_trace w_trace].
  rewrite for_each_emit. cbn [w_self with_trace w_trace].
  rewrite for_each_emit. cbn [w_self with_trace w_trace].
  rewrite for_each_emit. cbn [w_self with_trace w_trace].
  by rewrite !with_trace_with_trace, <- !app_assoc.
Qed.

Lemma shutdown_stop_accepting_no_timeout (sockets : option (list positive)) (w : World) :
  (shutdown_stop_accepting sockets w).1 ≠ Raise TimeoutError.
Proof. rewrite shutdown_stop_accepting_spec. apply suspend_on_unarmed. Qed.

Lemma force_cancel_tasks_spec (w : World) :
  force_cancel_tasks w
  = (Ok tt,
     with_trace
       (w_trace w
        ++ Log ERROR "Cancel %s running task(s), timeout graceful shutdown exceeded"
             [Z.of_nat (size (tasks (server_state (w_self w))))]
        :: map (fun t => TaskCancel t cancel_message)
             (elements (tasks (server_state (w_self w)))))
       w).
Proof.
  unfold force_cancel_tasks, log, mbind, M_bind, get_self.
  rewrite emit_eq. cbn [w_self with_trace w_trace].
  rewrite for_each_emit. cbn [w_self with_trace w_trace].
  by rewrite !with_trace_with_trace, <- !app_assoc.
Qed.

(** C8, as the code has it: a drain that ends with the deadline elapsed is
    handled inside [shutdown].  The handler logs, at the error level, how
    many tasks are registered, cancels every registered task with the
    message [cancel_message], and [shutdown] then goes on to the lifespan
    handshake, which it skips only when [force_exit] is set; it returns
    normally.  No run of [shutdown] ends with the timeout raised. *)
Theorem shutdown_drain_timeout_handled
    (sockets : option (list positive)) (w w1 w2 : World) :
  shutdown_stop_accepting sockets w = (Ok tt, w1) →
  shutdown_drain w1 = (Raise TimeoutError, w2) →
  let '(r, w3) := shutdown sockets w in
  r = Ok tt ∧
  w_trace w3
  = w_trace w2
    ++ [Log ERROR "Cancel %s running task(s), timeout graceful shutdown exceeded"
          [Z.of_nat (size (tasks (server_state (w_self w2))))]]
    ++ map (fun t => TaskCancel t cancel_message) (elements (tasks (server_state (w_self w2))))
    ++ (if force_exit (w_self w2) then [] else [LifespanShutdown]) ∧
  Forall (fun t => TaskCancel t cancel_message ∈ w_trace w3)
         (elements (tasks (server_state (w_self w2)))) ∧
  w_self w3 = w_self w2 ∧
  w_heap w3 = w_heap w2 ∧
  ∀ (sockets' : option (list positive)) (w' : World),
    (shutdown sockets' w').1 ≠ Raise TimeoutError.
Proof.
  intros H1 H2.
  assert (Hno : ∀ (sockets' : option (list positive)) (w' : World),
             (shutdown sockets' w').1 ≠ Raise TimeoutError).
  { intros s' w'. unfold shutdown. unfold mbind at 1 2. unfold M_bind at 1 2.
    pose proof (shutdown_stop_accepting_no_timeout s' w') as Hs.
    destruct (shutdown_stop_accepting s' w') as [[[]|e|] wa]; simpl in Hs; try done.
    unfold try_except.
    destruct (shutdown_drain wa) as [[[]|e|] wb]; try done.
    - unfold mbind, M_bind, get_self, emit, mret, M_ret. simpl.
        by destruct (force_exit (w_self wb)).
    - destruct e; simpl; try done.
        rewrite force_cancel_tasks_spec.
        unfold mbind, M_bind, get_self, emit, mret, M_ret. simpl.
        by destruct (force_exit (w_self wb)). }
  unfold shutdown. unfold mbind at 1 2. unfold M_bind at 1 2.
  rewrite H1. unfold try_except. rewrite H2. simpl exn_eqb. cbv iota.
  rewrite force_cancel_tasks_spec.
  unfold mbind, M_bind, get_self, emit, mret, M_ret.
  cbn [w_self with_trace w_trace w_heap].
  assert (Hin : ∀ (rest : list effect),
    Forall (fun t => TaskCancel t cancel_message
                     ∈ (w_trace w2
                        ++ Log ERROR "Cancel %s running task(s), timeout graceful shutdown exceeded"
                             [Z.of_nat (size (tasks (server_state (w_self w2))))]
                        :: map (fun t => TaskCancel t cancel_message)
                             (elements (tasks (server_state (w_self w2))))) ++ rest)
           (elements (tasks (server_state (w_self w2))))).
  { intros rest. apply Forall_forall. intros t Ht.
    apply elem_of_app. left. apply elem_of_app. right. right.
    apply (list_elem_of_fmap_2 (fun t => TaskCancel t cancel_message)). exact Ht. }
  destruct (force_exit (w_self w2)); simpl.
  - repeat split; try done.
    + f_equal. by rewrite app_nil_r.
    + specialize (Hin []). by rewrite app_nil_r in Hin.
  - repeat split; try done; try apply Hin.
    by rewrite <- app_assoc.
Qed.

Lemma shutdown_drain_timeout_handled_witness :
  let w := busy_world in
  let w2 := (shutdown_drain (shutdown_stop_accepting None w).2).2 in
  let '(r, w3) := shutdown None w in
  r = Ok tt ∧
  w_trace w3
  = w_trace w2
    ++ [Log ERROR "Cancel %s running task(s), timeout graceful shutdown exceeded"
          [Z.of_nat (size (tasks (server_state (w_self w2))))]]
    ++ map (fun t => TaskCancel t cancel_message) (elements (tasks (server_state (w_self w2))))
    ++ (if force_exit (w_self w2) then [] else [LifespanShutdown]) ∧
  Forall (fun t => TaskCancel t cancel_message ∈ w_trace w3)
         (elements (tasks (server_state (w_self w2)))) ∧
  w_self w3 = w_self w2 ∧
  w_heap w3 = w_heap w2 ∧
  ∀ (sockets' : option (list positive)) (w' : World),
    (shutdown sockets' w').1 ≠ Raise TimeoutError.
Proof.
  apply (shutdown_drain_timeout_handled None busy_world
           (shutdown_stop_accepting None busy_world).2
           (shutdown_drain (shutdown_stop_accepting None busy_world).2).2).
  - vm_compute. reflexivity.
  - vm_compute. reflexivity.
Defined.

(** The calls of [shutdown] in [busy_world], in order. *)
Example shutdown_busy_world_trace :
  w_trace (shutdown None busy_world).2
  = [Log INFO "Shutting down" [];
     ListenerClose 11;
     ConnectionShutdown 3;
     Log INFO "Waiting for connections to close. (CTRL+C to force quit)" [];
     Log ERROR "Cancel %s running task(s), timeout graceful shutdown exceeded" [2];
     TaskCancel 7 "Task cancelled, timeout graceful shutdown exceeded";
     TaskCancel 9 "Task cancelled, timeout graceful shutdown exceeded";
     LifespanShutdown].
Proof. vm_compute. reflexivity. Qed.

(** C8, as the claim has it, fails: in [busy_world] the deadline elapses
    during the drain, two tasks are cancelled, and nothing is logged at the
    warning level; the count is logged at the error level. *)
Lemma shutdown_timeout_logs_no_warning :
  (shutdown_drain (shutdown_stop_accepting None busy_world).2).1 = Raise TimeoutError ∧
  (shutdown None busy_world).1 = Ok tt ∧
  ¬ (∃ msg args, Log WARNING msg args ∈ w_trace (shutdown None busy_world).2).
Proof.
  split; [vm_compute; reflexivity|]. split; [vm_compute; reflexivity|].
  rewrite shutdown_busy_world_trace.
  intros (msg & args & H).
  repeat (apply elem_of_cons in H as [H|H]; [discriminate|]).
  by apply elem_of_nil in H.
Qed.

(** * Further properties of the code *)

(** ** The event pool as a stack of reusable events *)

Lemma with_event_pool_same (self : ServerState) :
  with_event_pool (_event_pool self) self = self.
Proof. by destruct self. Qed.

Lemma with_event_pool_twice (p q : list ref) (self : ServerState) :
  with_event_pool p (with_event_pool q self) = with_event_pool p self.
Proof. done. Qed.

(** X1: an event released into a pool with room is the next one acquired,
    and it comes back unset whatever its state was when released; the pool
    is then as it was before the release. *)
Theorem release_then_acquire_roundtrip (self : ServerState) (event : ref) (h : heap) :
  Z.of_nat (length (_event_pool self)) < _event_pool_max_size self →
  let '(self1, h1) := release_event self event h in
  let '(got, self2, h2) := acquire_event self1 h1 in
  got = event ∧ self2 = self ∧ Event_is_set got h2 = Some false.
Proof.
  intros H. rewrite release_event_below by done.
  rewrite (acquire_event_snoc _ _ (_event_pool self) event) by done.
  rewrite with_event_pool_twice, with_event_pool_same.
  repeat split. apply Event_clear_unset.
Qed.

Lemma release_then_acquire_roundtrip_witness :
  let '(self1, h1) := release_event new_state.1 5%positive (Event_set 5%positive new_state.2) in
  let '(got, self2, h2) := acquire_event self1 h1 in
  got = 5%positive ∧ self2 = new_state.1 ∧ Event_is_set got h2 = Some false.
Proof.
  apply (release_then_acquire_roundtrip new_state.1 5%positive
           (Event_set 5%positive new_state.2)).
  vm_compute. reflexivity.
Defined.

Lemma release_all_fits (es : list ref) (self : ServerState) (h : heap) :
  Z.of_nat (length (_event_pool self) + length es) ≤ _event_pool_max_size self →
  (release_all es self h).1 = with_event_pool (_event_pool self ++ es) self.
Proof.
  revert self h. induction es as [|e es IH]; intros self h H; simpl in *.
  - by rewrite app_nil_r, with_event_pool_same.
  - rewrite release_event_below by lia.
    rewrite IH; simpl; rewrite ?length_app; simpl; [|lia].
    by rewrite with_event_pool_twice, <- app_assoc.
Qed.

Lemma acquire_many_app (p es : list ref) (self : ServerState) (h : heap) :
  _event_pool self = p ++ es →
  (acquire_many (length es) self h).1 = (rev es, with_event_pool p self).
Proof.
  revert self h. induction es as [|e es IH] using rev_ind; intros self h E.
  - simpl. rewrite app_nil_r in E. by rewrite <- E, with_event_pool_same.
  - rewrite length_app. simpl. rewrite Nat.add_1_r. simpl.
    rewrite app_assoc in E. rewrite (acquire_event_snoc _ _ _ _ E).
    specialize (IH (with_event_pool (p ++ es) self) (Event_clear e h) eq_refl).
    destruct (acquire_many (length es) _ _) as [[got s2] h2]. simpl in *.
    injection IH as -> ->. by rewrite rev_app_distr.
Qed.

(** X3: the pool is a stack.  Events released one after the other into a
    pool that has room for all of them are acquired again in the reverse
    order, the last released first, and the pool is back to what it held. *)
Theorem release_all_then_acquire_lifo (es : list ref) (self : ServerState) (h : heap) :
  Z.of_nat (length (_event_pool self) + length es) ≤ _event_pool_max_size self →
  let '(self1, h1) := release_all es self h in
  let '(got, self2, h2) := acquire_many (length es) self1 h1 in
  got = rev es ∧ self2 = self.
Proof.
  intros H. pose proof (release_all_fits es self h H) as R.
  destruct (release_all es self h) as [self1 h1]. simpl in R. subst self1.
  pose proof (acquire_many_app (_event_pool self) es
                (with_event_pool (_event_pool self ++ es) self) h1 eq_refl) as A.
  destruct (acquire_many (length es) _ h1) as [[got s2] h2]. simpl in A.
  injection A as -> ->. by rewrite with_event_pool_twice, with_event_pool_same.
Qed.

Lemma release_all_then_acquire_lifo_witness :
  let '(self1, h1) := release_all [4; 5; 6]%positive new_state.1 new_state.2 in
  let '(got, self2, h2) := acquire_many (length [4; 5; 6]%positive) self1 h1 in
  got = rev [4; 5; 6]%positive ∧ self2 = new_state.1.
Proof.
  apply (release_all_then_acquire_lifo [4; 5; 6]%positive new_state.1 new_state.2).
  vm_compute. discriminate.
Defined.

(** X2: with a ceiling of zero (or below) the pool never holds anything,
    whatever is released, and every acquisition returns an object that was
    not allocated before it. *)
Theorem zero_capacity_never_reuses (ops : list pool_op) (self : ServerState) (h : heap) :
  _event_pool_max_size self ≤ 0 →
  _event_pool self = [] →
  let st := pool_run ops (self, h) in
  _event_pool st.1 = [] ∧
  st.2 !! (acquire_event st.1 st.2).1.1 = None.
Proof.
  intros Hc He.
  assert (P : _event_pool (pool_run ops (self, h)).1 = [] ∧
              _event_pool_max_size (pool_run ops (self, h)).1 ≤ 0).
  { revert self h Hc He. induction ops as [|op ops IH]; intros self h Hc He; [done|].
    simpl. destruct op as [|e|e]; simpl.
    - rewrite (acquire_event_empty _ _ He). by apply IH.
    - rewrite release_event_full by (rewrite He; simpl; lia). by apply IH.
    - by apply IH. }
  destruct P as [P _]. simpl. split; [done|].
  rewrite (acquire_event_empty _ _ P). apply Event_new_fresh.
Qed.

Lemma zero_capacity_never_reuses_witness :
  let st := pool_run [Acquire; Release 2; Release 2; Acquire; Release 3]%positive
              (with_event_pool_max_size 0 new_state.1, new_state.2) in
  _event_pool st.1 = [] ∧
  st.2 !! (acquire_event st.1 st.2).1.1 = None.
Proof.
  apply (zero_capacity_never_reuses [Acquire; Release 2; Release 2; Acquire; Release 3]%positive
           (with_event_pool_max_size 0 new_state.1) new_state.2).
  - vm_compute. discriminate.
  - reflexivity.
Defined.

(** Allocation leaves every allocated event as it was. *)
Lemma Event_new_other (h : heap) (x : ref) :
  is_Some (h !! x) → (Event_new h).2 !! x = h !! x.
Proof.
  intros Hx. unfold Event_new. simpl.
  apply lookup_insert_ne. intros Heq.
  pose proof (Event_new_fresh h) as F. unfold Event_new in F. simpl in F.
  rewrite <- Heq, F in Hx. by destruct Hx.
Qed.

Lemma acquire_many_new (n : nat) (self : ServerState) (h : heap) :
  _event_pool self = [] →
  let '(es, self', h') := acquire_many n self h in
  NoDup es ∧
  Forall (fun e => h !! e = None ∧ h' !! e = Some false) es ∧
  (∀ x, is_Some (h !! x) → h' !! x = h !! x).
Proof.
  intros E. revert h. induction n as [|n IH]; intros h; simpl.
  - split; [apply NoDup_nil_2|]. split; [apply Forall_nil_2|done].
  - rewrite (acquire_event_empty _ _ E).
    specialize (IH (Event_new h).2).
    destruct (acquire_many n self (Event_new h).2) as [[es s2] h2].
    destruct IH as (ND & F & K).
    pose proof (Event_new_fresh h) as Hf.
    pose proof (Event_new_unset h) as Hu. unfold Event_is_set in Hu.
    assert (Hin : (Event_new h).1 ∉ es).
    { intros Hin. rewrite Forall_forall in F. destruct (F _ Hin) as [F1 _].
      rewrite Hu in F1. discriminate. }
    split; [by apply NoDup_cons_2|]. split.
    + apply Forall_cons_2.
      * split; [done|]. rewrite K; [done|]. rewrite Hu. by eexists.
      * eapply Forall_impl; [exact F|]. intros e [F1 F2]. split; [|done].
        destruct (h !! e) eqn:Heq; [|done].
        rewrite Event_new_other in F1; [|by rewrite Heq]. by rewrite Heq in F1.
    + intros x Hx. rewrite K.
      * by apply Event_new_other.
      * by rewrite Event_new_other.
Qed.

(** X4: acquisitions from an empty pool hand out pairwise distinct objects,
    none of which existed before, each of them unset, and they leave every
    event that existed before untouched. *)
Theorem acquire_many_distinct_new_events (n : nat) (self : ServerState) (h : heap) :
  _event_pool self = [] →
  let '(es, self', h') := acquire_many n self h in
  length es = n ∧
  NoDup es ∧
  Forall (fun e => h !! e = None ∧ Event_is_set e h' = Some false) es ∧
  (∀ x, is_Some (h !! x) → h' !! x = h !! x) ∧
  self' = self.
Proof.
  intros E.
  pose proof (acquire_many_new n self h E) as H.
  pose proof (acquire_many_empty n self h E) as [L S].
  destruct (acquire_many n self h) as [[es s'] h']. simpl in L, S.
  destruct H as (H1 & H2 & H3). done.
Qed.

Lemma acquire_many_distinct_new_events_witness :
  let '(es, self', h') := acquire_many 10 new_state.1 new_state.2 in
  length es = 10%nat ∧
  NoDup es ∧
  Forall (fun e => new_state.2 !! e = None ∧ Event_is_set e h' = Some false) es ∧
  (∀ x, is_Some (new_state.2 !! x) → h' !! x = new_state.2 !! x) ∧
  self' = new_state.1.
Proof.
  apply (acquire_many_distinct_new_events 10 new_state.1 new_state.2).
  reflexivity.
Defined.

Lemma pool_all_unset_step (st : ServerState * heap) (op : pool_op) :
  pool_all_unset st →
  match op with SetEvent e => e ∉ _event_pool st.1 | _ => True end →
  pool_all_unset (pool_step st op).
Proof.
  unfold pool_all_unset, Event_is_set. destruct st as [self h]. simpl.
  intros H Hop. destruct op as [|e|e]; simpl.
  - destruct (_event_pool self) as [|x p] eqn:E.
    + rewrite (acquire_event_empty _ _ E). simpl. rewrite E. constructor.
    + destruct (exists_last (l := x :: p)) as (q & e & Eq); [done|].
      rewrite Eq in E. rewrite (acquire_event_snoc _ _ _ _ E). simpl.
      rewrite Eq in H. apply Forall_app in H as [H _].
      eapply Forall_impl; [exact H|]. intros y Hy. unfold Event_clear.
      destruct (decide (e = y)) as [->|Hne];
        [apply lookup_insert_eq|by rewrite lookup_insert_ne].
  - unfold release_event. destruct (_ <? _); [|done]. simpl.
    apply Forall_app. split.
    + eapply Forall_impl; [exact H|]. intros y Hy. unfold Event_clear.
      destruct (decide (e = y)) as [->|Hne];
        [apply lookup_insert_eq|by rewrite lookup_insert_ne].
    + constructor; [apply lookup_insert_eq|constructor].
  - rewrite Forall_forall in H |- *. intros y Hy. unfold Event_set.
    rewrite lookup_insert_ne; [by apply H|]. intros ->. done.
Qed.

(** X5: as long as callers set only events that they hold (not ones that
    sit in the pool), every event in the pool is unset after any sequence of
    acquisitions and releases, whatever the state of the released events. *)
Theorem pooled_events_stay_unset (ops : list pool_op) (st : ServerState * heap) :
  pool_all_unset st →
  sets_only_held_events ops st →
  pool_all_unset (pool_run ops st).
Proof.
  revert st. induction ops as [|op ops IH]; intros st H D; [done|].
  destruct D as [D1 D2]. simpl. apply IH; [|done].
  by apply pool_all_unset_step.
Qed.

Lemma pooled_events_stay_unset_witness :
  pool_all_unset
    (pool_run [Acquire; SetEvent 2; Release 2; SetEvent 7; Release 7; Acquire; Release 7]%positive
       new_state).
Proof.
  apply (pooled_events_stay_unset
           [Acquire; SetEvent 2; Release 2; SetEvent 7; Release 7; Acquire; Release 7]%positive
           new_state).
  - constructor.
  - simpl. repeat split; try exact I; vm_compute; intros H;
      repeat (apply elem_of_cons in H as [H|H]; [discriminate|]);
      by apply elem_of_nil in H.
Defined.

(** ** Separate server states *)

Lemma Event_new_ne (h : heap) (x : ref) : is_Some (h !! x) → (Event_new h).1 ≠ x.
Proof.
  intros Hx Heq. pose proof (Event_new_fresh h) as F. rewrite Heq in F.
  rewrite F in Hx. by destruct Hx.
Qed.

Lemma Event_new_keeps (h : heap) (x : ref) (b : bool) :
  h !! x = Some b → (Event_new h).2 !! x = Some b.
Proof. intros Hx. rewrite Event_new_other; [done|]. by rewrite Hx. Qed.

Lemma ServerState_init_eq (h : heap) :
  ServerState_init h
  = (mkServerState 0 ∅ ∅ [] [] 1000 (Event_new h).1 None 0, (Event_new h).2).
Proof. unfold ServerState_init. by destruct (Event_new h). Qed.

(** X6: two [ServerState] objects built one after the other share nothing:
    their shutdown events and the events their pools hand out are four
    different objects, none of which existed before, and all are unset. *)
Theorem server_states_are_isolated (h : heap) :
  let '(state1, h1) := ServerState_init h in
  let '(state2, h2) := ServerState_init h1 in
  let '(event1, _, h3) := acquire_event state1 h2 in
  let '(event2, _, h4) := acquire_event state2 h3 in
  NoDup [_shutdown_event state1; _shutdown_event state2; event1; event2] ∧
  Forall (fun e => h !! e = None ∧ Event_is_set e h4 = Some false)
         [_shutdown_event state1; _shutdown_event state2; event1; event2].
Proof.
  rewrite !ServerState_init_eq.
  rewrite acquire_event_empty by done.
  rewrite acquire_event_empty by done.
  cbn [_shutdown_event fst snd].
  set (h1 := (Event_new h).2). set (a := (Event_new h).1).
  set (h2 := (Event_new h1).2). set (b := (Event_new h1).1).
  set (h3 := (Event_new h2).2). set (c := (Event_new h2).1).
  set (h4 := (Event_new h3).2). set (d := (Event_new h3).1).
  unfold Event_is_set.
  assert (Ha1 : h1 !! a = Some false) by apply Event_new_unset.
  assert (Hb2 : h2 !! b = Some false) by apply Event_new_unset.
  assert (Hc3 : h3 !! c = Some false) by apply Event_new_unset.
  assert (Hd4 : h4 !! d = Some false) by apply Event_new_unset.
  assert (Ha2 : h2 !! a = Some false) by by apply Event_new_keeps.
  assert (Ha3 : h3 !! a = Some false) by by apply Event_new_keeps.
  assert (Ha4 : h4 !! a = Some false) by by apply Event_new_keeps.
  assert (Hb3 : h3 !! b = Some false) by by apply Event_new_keeps.
  assert (Hb4 : h4 !! b = Some false) by by apply Event_new_keeps.
  assert (Hc4 : h4 !! c = Some false) by by apply Event_new_keeps.
  assert (Fa : h !! a = None) by apply Event_new_fresh.
  assert (Fb : h1 !! b = None) by apply Event_new_fresh.
  assert (Fc : h2 !! c = None) by apply Event_new_fresh.
  assert (Fd : h3 !! d = None) by apply Event_new_fresh.
  assert (Nab : a ≠ b) by (intros E; rewrite E in Ha1; congruence).
  assert (Nac : a ≠ c) by (intros E; rewrite E in Ha2; congruence).
  assert (Nad : a ≠ d) by (intros E; rewrite E in Ha3; congruence).
  assert (Nbc : b ≠ c) by (intros E; rewrite E in Hb2; congruence).
  assert (Nbd : b ≠ d) by (intros E; rewrite E in Hb3; congruence).
  assert (Ncd : c ≠ d) by (intros E; rewrite E in Hc3; congruence).
  assert (Gb : h !! b = None).
  { destruct (h !! b) eqn:Eb; [|done].
    assert (h1 !! b = Some b0) by by apply Event_new_keeps. congruence. }
  assert (Gc : h !! c = None).
  { destruct (h !! c) eqn:Eb; [|done].
    assert (h1 !! c = Some b0) by by apply Event_new_keeps.
    assert (h2 !! c = Some b0) by by apply Event_new_keeps. congruence. }
  assert (Gd : h !! d = None).
  { destruct (h !! d) eqn:Eb; [|done].
    assert (h1 !! d = Some b0) by by apply Event_new_keeps.
    assert (h2 !! d = Some b0) by by apply Event_new_keeps.
    assert (h3 !! d = Some b0) by by apply Event_new_keeps. congruence. }
  split.
  - repeat (apply NoDup_cons_2; [intros H; repeat (apply elem_of_cons in H as [H|H]; [congruence|]); by apply elem_of_nil in H|]).
    apply NoDup_nil_2.
  - repeat (apply Forall_cons_2; [done|]). apply Forall_nil_2.
Qed.

(** ** The date header cache is transparent *)

Section DateHeaderCacheMore.

Variable formatdate : Z -> string.

Lemma get_date_header_consistent (self : ServerState) (t : Z) :
  date_cache_consistent formatdate self →
  (get_date_header formatdate self t).1.1 = Some (encode (formatdate t)) ∧
  date_cache_consistent formatdate (get_date_header formatdate self t).1.2.
Proof.
  unfold date_cache_consistent. intros H. unfold get_date_header.
  destruct (Z.eqb_spec t (_cached_date_time self)) as [E|E]; simpl.
  - destruct (_cached_date self) as [v|] eqn:Hv; simpl.
    + rewrite Hv. split; [|done]. f_equal. rewrite E. by apply H.
    + split; [done|]. by intros v [= <-].
  - split; [done|]. by intros v [= <-].
Qed.

(** X7: the cache never shows.  From a state whose cache is empty or holds
    the date of its second, each call returns the bytes that [formatdate]
    gives for the second of that call, for any sequence of call times. *)
Theorem get_date_header_transparent (times : list Z) (self : ServerState) :
  date_cache_consistent formatdate self →
  let '(vs, self', calls) := get_date_header_seq formatdate times self in
  vs = map (fun t => Some (encode (formatdate t))) times ∧
  date_cache_consistent formatdate self'.
Proof.
  revert self. induction times as [|t times IH]; intros self H; simpl; [done|].
  destruct (get_date_header_consistent self t H) as [H1 H2].
  destruct (get_date_header formatdate self t) as [[v s1] c1]. simpl in H1, H2.
  specialize (IH s1 H2).
  destruct (get_date_header_seq formatdate times s1) as [[vs s2] c2].
  destruct IH as [-> IH]. by subst v.
Qed.

Lemma get_date_header_seq_calls_sorted (times : list Z) (self : ServerState) :
  StronglySorted Z.le times →
  _cached_date self = None ∨ Forall (fun t => _cached_date_time self ≤ t) times →
  StronglySorted Z.lt (get_date_header_seq formatdate times self).2 ∧
  (_cached_date self ≠ None →
   Forall (fun c => _cached_date_time self < c) (get_date_header_seq formatdate times self).2).
Proof.
  revert self. induction times as [|t times IH]; intros self S B; simpl.
  - split; [constructor|]. intros _. constructor.
  - apply StronglySorted_inv in S as [S St].
    destruct (get_date_header formatdate self t) as [[v s1] c1] eqn:G.
    unfold get_date_header in G.
    destruct (Z.eqb_spec t (_cached_date_time self)) as [E|E]; simpl in G.
    + destruct (_cached_date self) as [v0|] eqn:Hv; simpl in G.
      * (* hit *)
        injection G as <- <- <-.
        destruct B as [B|B]; [done|]. apply Forall_cons in B as [_ B].
        specialize (IH self S (or_intror B)).
        destruct (get_date_header_seq formatdate times self) as [[vs s2] c2].
        simpl in *. destruct IH as [I1 I2]. split; [done|].
        intros _. apply I2. by rewrite Hv.
      * (* first call *)
        injection G as <- <- <-.
        specialize (IH (with_cached_date (Some (encode (formatdate t))) t self) S).
        simpl in IH. specialize (IH (or_intror St)).
        destruct (get_date_header_seq formatdate times _) as [[vs s2] c2].
        simpl in *. destruct IH as [I1 I2]. specialize (I2 ltac:(done)).
        split; [by constructor|]. done.
    + injection G as <- <- <-.
      specialize (IH (with_cached_date (Some (encode (formatdate t))) t self) S).
      simpl in IH. specialize (IH (or_intror St)).
      destruct (get_date_header_seq formatdate times _) as [[vs s2] c2].
      simpl in *. destruct IH as [I1 I2]. specialize (I2 ltac:(done)).
      split; [by constructor|].
      intros Hn. destruct B as [B|B]; [done|]. apply Forall_cons in B as [B _].
      constructor; [lia|]. eapply Forall_impl; [exact I2|]. simpl. lia.
Qed.

(** X8: with a clock that never goes back, a [ServerState] whose cache is
    still empty formats each second at most once, however many calls are
    made: the seconds passed to [formatdate] are strictly increasing. *)
Theorem get_date_header_formats_each_second_once (times : list Z) (self : ServerState) :
  _cached_date self = None →
  StronglySorted Z.le times →
  let '(vs, self', calls) := get_date_header_seq formatdate times self in
  StronglySorted Z.lt calls ∧ NoDup calls ∧ calls ⊆ times.
Proof.
  intros Hn S.
  pose proof (get_date_header_seq_calls_sorted times self S (or_introl Hn)) as [H _].
  assert (Sub : ∀ ts s, (get_date_header_seq formatdate ts s).2 ⊆ ts).
  { induction ts as [|t ts IH]; intros s; simpl; [done|].
    specialize (IH (get_date_header formatdate s t).1.2).
    unfold get_date_header in *.
    destruct (negb (t =? _cached_date_time s) || bool_decide (_cached_date s = None));
      simpl in *;
      destruct (get_date_header_seq formatdate ts _) as [[vs s2] c2]; simpl in *.
    - intros x Hx. apply elem_of_cons in Hx as [->|Hx];
        [apply list_elem_of_here|apply list_elem_of_further; by apply IH].
    - intros x Hx. apply list_elem_of_further. by apply IH. }
  specialize (Sub times self).
  destruct (get_date_header_seq formatdate times self) as [[vs s2] calls]. simpl in *.
  repeat split; try done.
  clear -H. induction H as [|c cs H IH F]; [constructor|].
  constructor; [|done]. intros Hin. rewrite Forall_forall in F.
  specialize (F _ Hin). lia.
Qed.

End DateHeaderCacheMore.

Lemma get_date_header_transparent_witness :
  let fmt := fun t : Z => ("epoch " +:+ pretty t)%string in
  let '(vs, self', calls) := get_date_header_seq fmt [7; 7; 9; 8; 8] new_state.1 in
  vs = map (fun t => Some (encode (fmt t))) [7; 7; 9; 8; 8] ∧
  date_cache_consistent fmt self'.
Proof.
  apply (get_date_header_transparent (fun t : Z => ("epoch " +:+ pretty t)%string)
           [7; 7; 9; 8; 8] new_state.1).
  intros v H. discriminate H.
Defined.

Lemma get_date_header_formats_each_second_once_witness :
  let fmt := fun t : Z => ("epoch " +:+ pretty t)%string in
  let '(vs, self', calls) := get_date_header_seq fmt [0; 0; 1; 1; 1; 4] new_state.1 in
  StronglySorted Z.lt calls ∧ NoDup calls ∧ calls ⊆ [0; 0; 1; 1; 1; 4].
Proof.
  apply (get_date_header_formats_each_second_once
           (fun t : Z => ("epoch " +:+ pretty t)%string) [0; 0; 1; 1; 1; 4] new_state.1).
  - reflexivity.
  - repeat (constructor; [|repeat constructor; lia]). constructor.
Defined.

(** On a new [ServerState] the cached second is 0; a first call in second 0
    still formats, because nothing is cached yet. *)
Example get_date_header_first_call_at_zero :
  (get_date_header (fun t : Z => ("epoch " +:+ pretty t)%string) new_state.1 0).2 = [0].
Proof. reflexivity. Qed.

(** ** Sequences of signals *)

Lemma handle_exit_seq_app (l1 l2 : list Z) (st : Server * heap) :
  handle_exit_seq (l1 ++ l2) st = handle_exit_seq l2 (handle_exit_seq l1 st).
Proof. apply fold_left_app. Qed.

Lemma handle_exit_seq_should_exit (sigs : list Z) (st : Server * heap) :
  should_exit (handle_exit_seq sigs st).1 = should_exit st.1 || bool_decide (sigs ≠ []).
Proof.
  revert st. induction sigs as [|sig sigs IH]; intros st; simpl.
  - by rewrite orb_false_r.
  - rewrite IH, handle_exit_should_exit. simpl. by rewrite orb_true_r.
Qed.

Lemma handle_exit_seq_force_exit_kept (sigs : list Z) (st : Server * heap) :
  force_exit st.1 = true → force_exit (handle_exit_seq sigs st).1 = true.
Proof.
  revert st. induction sigs as [|sig sigs IH]; intros st H; [done|].
  simpl. apply IH. by rewrite handle_exit_force_exit, H.
Qed.

Lemma handle_exit_effect (self : Server) (sig : Z) (h : heap) :
  _captured_signals (handle_exit self sig h).1 = _captured_signals self ++ [sig] ∧
  server_state (handle_exit self sig h).1 = server_state self ∧
  Event_is_set (_shutdown_event (server_state (handle_exit self sig h).1))
    (handle_exit self sig h).2 = Some true.
Proof.
  unfold handle_exit. simpl.
  destruct (should_exit self && _); simpl; repeat split; apply Event_set_is_set.
Qed.

Lemma handle_exit_config (self : Server) (sig : Z) (h : heap) :
  config (handle_exit self sig h).1 = config self.
Proof. unfold handle_exit. simpl. by destruct (should_exit self && _). Qed.

Lemma handle_exit_seq_frame (sigs : list Z) (self : Server) (h : heap) :
  _captured_signals (handle_exit_seq sigs (self, h)).1 = _captured_signals self ++ sigs ∧
  server_state (handle_exit_seq sigs (self, h)).1 = server_state self ∧
  config (handle_exit_seq sigs (self, h)).1 = config self ∧
  (Event_is_set (_shutdown_event (server_state self)) h = Some true →
   Event_is_set (_shutdown_event (server_state self)) (handle_exit_seq sigs (self, h)).2
   = Some true).
Proof.
  revert self h. induction sigs as [|sig sigs IH]; intros self h; simpl.
  - by rewrite app_nil_r.
  - pose proof (handle_exit_effect self sig h) as (H1 & H4 & H6).
    pose proof (handle_exit_config self sig h) as C.
    destruct (handle_exit self sig h) as [s1 h1]. simpl in C, H1, H4, H6.
    destruct (IH s1 h1) as (I1 & I2 & I3 & I4).
    rewrite H4 in I4, H6.
    split; [by rewrite I1, H1, <- app_assoc|].
    split; [congruence|]. split; [congruence|].
    intros _. by apply I4.
Qed.

(** X9: the captured-signal log records exactly the signals delivered, in
    the order of delivery; the handler touches nothing of the shared server
    state, and once any signal was delivered [should_exit] and the shutdown
    event are set. *)
Theorem handle_exit_seq_log (sigs : list Z) (self : Server) (h : heap) :
  let '(self', h') := handle_exit_seq sigs (self, h) in
  _captured_signals self' = _captured_signals self ++ sigs ∧
  server_state self' = server_state self ∧
  config self' = config self ∧
  match sigs with
  | [] => self' = self ∧ h' = h
  | _ :: _ =>
      should_exit self' = true ∧
      Event_is_set (_shutdown_event (server_state self)) h' = Some true
  end.
Proof.
  destruct (handle_exit_seq_frame sigs self h) as (G1 & G2 & G3 & _).
  pose proof (handle_exit_seq_should_exit sigs (self, h)) as Hs.
  destruct sigs as [|sig sigs].
  - simpl. by rewrite app_nil_r.
  - destruct (handle_exit_seq (sig :: sigs) (self, h)) as [self' h'] eqn:E.
    simpl in G1, G2, G3, Hs. repeat split; try done.
    { rewrite Hs. apply orb_true_r. }
    simpl in E. pose proof (handle_exit_effect self sig h) as (H1 & H4 & H6).
    destruct (handle_exit self sig h) as [s1 h1]. simpl in H1, H4, H6.
    destruct (handle_exit_seq_frame sigs s1 h1) as (_ & _ & _ & K).
    rewrite E in K. simpl in K. rewrite H4 in K, H6. by apply K.
Qed.

(** X10: an interrupt that follows any other handled signal forces the
    exit, and nothing delivered afterwards takes that back. *)
Theorem second_interrupt_forces_exit (pre post : list Z) (self : Server) (h : heap) :
  pre ≠ [] →
  let '(self', h') := handle_exit_seq (pre ++ SIGINT :: post) (self, h) in
  force_exit self' = true ∧ should_exit self' = true.
Proof.
  intros Hpre.
  pose proof (handle_exit_seq_should_exit (pre ++ SIGINT :: post) (self, h)) as Hs.
  rewrite handle_exit_seq_app in *.
  pose proof (handle_exit_seq_should_exit pre (self, h)) as Hp.
  rewrite bool_decide_true, orb_true_r in Hp by done.
  destruct (handle_exit_seq pre (self, h)) as [s1 h1]. simpl in Hp.
  change (handle_exit_seq (SIGINT :: post) (s1, h1))
    with (handle_exit_seq post (handle_exit s1 SIGINT h1)) in *.
  pose proof (handle_exit_seq_force_exit_kept post (handle_exit s1 SIGINT h1)) as Hk.
  rewrite handle_exit_force_exit, Hp in Hk. simpl in Hk.
  rewrite orb_true_r in Hk. specialize (Hk eq_refl).
  destruct (handle_exit_seq post _) as [s2 h2]. simpl in *.
  split; [done|]. rewrite Hs. rewrite bool_decide_true; [by rewrite orb_true_r|].
  by destruct pre.
Qed.

Lemma second_interrupt_forces_exit_witness :
  let '(self', h') :=
    handle_exit_seq ([SIGTERM] ++ SIGINT :: [SIGTERM; SIGTERM])
      ((Server_init (mkConfig None None) ∅).1, (Server_init (mkConfig None None) ∅).2) in
  force_exit self' = true ∧ should_exit self' = true.
Proof.
  apply (second_interrupt_forces_exit [SIGTERM] [SIGTERM; SIGTERM]
           (Server_init (mkConfig None None) ∅).1 (Server_init (mkConfig None None) ∅).2).
  discriminate.
Defined.

(** ** Signal capture, beyond the normal exit *)

(** The three ways in which [capture_signals] ends on the main thread. *)
Lemma capture_signals_main_thread {A} (body : M A) (w : World) :
  w_main_thread w = true →
  capture_signals body w
  = match body (install_handlers (HANDLED_SIGNALS (w_win32 w)) w).2 with
    | (Ok a, w1) =>
        (Ok a,
         with_trace
           (w_trace w1
            ++ map (fun sig => SignalInstall sig (getsignal sig w))
                 (HANDLED_SIGNALS (w_win32 w))
            ++ map RaiseSignal (rev (_captured_signals (w_self w1))))
           (with_handlers
              (fold_left (fun t p => <[p.1 := p.2]> t)
                 (map (fun sig => (sig, getsignal sig w)) (HANDLED_SIGNALS (w_win32 w)))
                 (w_handlers w1))
              w1))
    | (Raise e, w1) =>
        (Raise e,
         with_trace
           (w_trace w1
            ++ map (fun sig => SignalInstall sig (getsignal sig w))
                 (HANDLED_SIGNALS (w_win32 w)))
           (with_handlers
              (fold_left (fun t p => <[p.1 := p.2]> t)
                 (map (fun sig => (sig, getsignal sig w)) (HANDLED_SIGNALS (w_win32 w)))
                 (w_handlers w1))
              w1))
    | (Pending, w1) => (Pending, w1)
    end.
Proof.
  intros Hmain. unfold capture_signals. rewrite Hmain. cbn [negb].
  unfold mbind at 1. unfold M_bind at 1.
  rewrite install_handlers_spec. cbn [snd].
  unfold mbind at 1. unfold M_bind at 1. unfold try_finally.
  destruct (body _) as [[a|e|] w1]; [| |done].
  - unfold mbind at 1. unfold M_bind at 1.
    rewrite restore_handlers_spec.
    unfold mret, M_ret, mbind, M_bind, get_self.
    pose proof (for_each_emit RaiseSignal) as Hr.
    unfold raise_signal. rewrite Hr.
    cbn [w_trace w_self w_heap with_trace with_handlers w_handlers].
    rewrite map_map. cbn [fst snd]. rewrite <- app_assoc.
    by rewrite with_trace_with_trace.
  - unfold mbind at 1. unfold M_bind at 1.
    rewrite restore_handlers_spec.
    unfold raise. rewrite map_map. done.
Qed.

(** X11: when the body of [with self.capture_signals()] raises, the exit
    still puts back the handlers that were installed on entry, and the
    exception goes on to the caller; the captured signals are not raised
    again. *)
Theorem capture_signals_body_raises {A} (body : M A) (w w1 : World) (e : exn) :
  w_main_thread w = true →
  body (install_handlers (HANDLED_SIGNALS (w_win32 w)) w).2 = (Raise e, w1) →
  let '(r, w2) := capture_signals body w in
  r = Raise e ∧
  w_trace w2
  = w_trace w1
    ++ map (fun sig => SignalInstall sig (getsignal sig w)) (HANDLED_SIGNALS (w_win32 w)) ∧
  Forall (fun sig => getsignal sig w2 = getsignal sig w) (HANDLED_SIGNALS (w_win32 w)) ∧
  w_self w2 = w_self w1 ∧
  w_heap w2 = w_heap w1.
Proof.
  intros Hmain Hbody. rewrite (capture_signals_main_thread body w Hmain), Hbody.
  repeat split.
  unfold getsignal. cbn [w_handlers with_trace with_handlers].
  apply getsignal_restored.
Qed.

(** X12: on entry [handle_exit] becomes the handler of every handled
    signal, what was installed before is returned signal by signal, and the
    handlers of all other signals are left alone. *)
Theorem install_handlers_installs (win32 : bool) (w : World) :
  let '(r, wi) := install_handlers (HANDLED_SIGNALS win32) w in
  r = Ok (map (fun sig => (sig, getsignal sig w)) (HANDLED_SIGNALS win32)) ∧
  Forall (fun sig => getsignal sig wi = self_handle_exit) (HANDLED_SIGNALS win32) ∧
  (∀ sig, sig ∉ HANDLED_SIGNALS win32 → getsignal sig wi = getsignal sig w) ∧
  w_self wi = w_self w ∧ w_heap wi = w_heap w ∧ w_sched wi = w_sched w.
Proof.
  rewrite install_handlers_spec. split; [done|].
  unfold getsignal. cbn [w_handlers with_trace with_handlers w_self w_heap w_sched].
  destruct win32; unfold HANDLED_SIGNALS, SIGINT, SIGTERM, SIGBREAK; simpl.
  - split.
    + repeat (apply Forall_cons_2;
              [by rewrite ?lookup_insert_eq, ?lookup_insert_ne,
                          ?lookup_insert_eq, ?lookup_insert_ne, ?lookup_insert_eq by done|]).
      apply Forall_nil_2.
    + split; [|done]. intros sig Hs.
      rewrite !lookup_insert_ne; [done| | |]; intros <-; apply Hs;
        repeat ((by apply list_elem_of_here) || apply list_elem_of_further).
  - split.
    + repeat (apply Forall_cons_2;
              [by rewrite ?lookup_insert_eq, ?lookup_insert_ne, ?lookup_insert_eq by done|]).
      apply Forall_nil_2.
    + split; [|done]. intros sig Hs.
      rewrite !lookup_insert_ne; [done| |]; intros <-; apply Hs;
        repeat ((by apply list_elem_of_here) || apply list_elem_of_further).
Qed.

Lemma install_handlers_installs_witness :
  let w := example_world (mkConfig None None) [] in
  let '(r, wi) := install_handlers (HANDLED_SIGNALS true) w in
  r = Ok (map (fun sig => (sig, getsignal sig w)) (HANDLED_SIGNALS true)) ∧
  Forall (fun sig => getsignal sig wi = self_handle_exit) (HANDLED_SIGNALS true) ∧
  (∀ sig, sig ∉ HANDLED_SIGNALS true → getsignal sig wi = getsignal sig w) ∧
  w_self wi = w_self w ∧ w_heap wi = w_heap w ∧ w_sched wi = w_sched w.
Proof.
  exact (install_handlers_installs true (example_world (mkConfig None None) [])).
Defined.

Lemma capture_signals_body_raises_witness :
  let w := cancelled_world in
  let w1 := (serve_body (install_handlers (HANDLED_SIGNALS (w_win32 w)) w).2).2 in
  let '(r, w2) := capture_signals serve_body w in
  r = Raise CancelledError ∧
  w_trace w2
  = w_trace w1
    ++ map (fun sig => SignalInstall sig (getsignal sig w)) (HANDLED_SIGNALS (w_win32 w)) ∧
  Forall (fun sig => getsignal sig w2 = getsignal sig w) (HANDLED_SIGNALS (w_win32 w)) ∧
  w_self w2 = w_self w1 ∧
  w_heap w2 = w_heap w1.
Proof.
  apply (capture_signals_body_raises serve_body cancelled_world
           (serve_body
              (install_handlers (HANDLED_SIGNALS (w_win32 cancelled_world))
                 cancelled_world).2).2
           CancelledError).
  - reflexivity.
  - vm_compute. reflexivity.
Defined.

(** In that run the termination signal was captured and is not raised
    again. *)
Example capture_signals_cancelled_run :
  let r := capture_signals serve_body cancelled_world in
  _captured_signals (w_self r.2) = [15] ∧
  w_trace r.2
  = [SignalInstall 2 self_handle_exit; SignalInstall 15 self_handle_exit;
     Log INFO "Shutting down" [];
     SignalInstall 2 SIG_DFL; SignalInstall 15 SIG_DFL].
Proof. vm_compute. done. Qed.





(** ** The drain only waits *)

Lemma deliver_with_trace (ev : env_event) (t : list effect) (w : World) :
  deliver ev (with_trace t w) = with_trace t (deliver ev w).
Proof.
  destruct ev as [f|sig| |]; simpl; try done.
  - by destruct (f (w_self w, w_heap w)).
  - unfold getsignal. simpl. by destruct (default SIG_DFL (w_handlers w !! sig)).
Qed.

Lemma fold_deliver_with_trace (evs : list env_event) (t : list effect) (w : World) :
  fold_left (fun w' ev => deliver ev w') evs (with_trace t w)
  = with_trace t (fold_left (fun w' ev => deliver ev w') evs w).
Proof.
  revert w. induction evs as [|ev evs IH]; intros w; [done|].
  simpl. by rewrite deliver_with_trace, IH.
Qed.

Lemma env_only_with_trace (k : nat) (t : list effect) (w : World) :
  env_only k (with_trace t w) = with_trace t (env_only k w).
Proof.
  unfold env_only. cbn [w_sched with_trace]. by rewrite fold_deliver_with_trace.
Qed.

Lemma only_waited_refl (w : World) : only_waited w w.
Proof.
  exists 0%nat, []. split; [|apply Forall_nil_2].
  by rewrite env_only_0, app_nil_r, with_trace_same.
Qed.

Lemma only_waited_env (k : nat) (w : World) : only_waited w (env_only k w).
Proof.
  exists k, []. split; [|apply Forall_nil_2].
  rewrite app_nil_r. rewrite <- (env_only_trace k w). by rewrite with_trace_same.
Qed.

Lemma only_waited_trans (w w1 w2 : World) :
  only_waited w w1 → only_waited w1 w2 → only_waited w w2.
Proof.
  intros (k1 & l1 & -> & F1) (k2 & l2 & -> & F2).
  exists (k1 + k2)%nat, (l1 ++ l2). split; [|by apply Forall_app].
  rewrite env_only_with_trace, env_only_add. simpl.
  by rewrite app_assoc.
Qed.

Lemma suspend_on_env (armed : bool) (sched : list env_event) (w : World) :
  ∃ k, (suspend_on armed sched w).2
       = with_sched (drop k sched) (fold_left (fun w' ev => deliver ev w') (take k sched) w).
Proof.
  revert w. induction sched as [|ev sched IH]; intros w.
  - by exists 0%nat.
  - destruct ev as [f|sig| |]; simpl.
    + by exists 1%nat.
    + by exists 1%nat.
    + destruct armed; [by exists 1%nat|].
      destruct (IH w) as [k Hk]. exists (S k). by rewrite Hk.
    + by exists 1%nat.
Qed.

Lemma waits_suspend (armed : bool) : waits (suspend armed).
Proof.
  intros w. destruct (suspend_on_env armed (w_sched w) w) as [k Hk].
  unfold suspend. rewrite Hk. apply (only_waited_env k w).
Qed.

Lemma waits_ret {A} (a : A) : waits (mret a).
Proof. intros w. apply only_waited_refl. Qed.

Lemma waits_get_self : waits get_self.
Proof. intros w. apply only_waited_refl. Qed.

Lemma waits_bind {A B} (m : M A) (k : A → M B) :
  waits m → (∀ a, waits (k a)) → waits (m ≫= k).
Proof.
  intros Hm Hk w. unfold mbind, M_bind. specialize (Hm w).
  destruct (m w) as [[a|e|] w1]; simpl in *; try done.
  eapply only_waited_trans; [exact Hm|]. apply Hk.
Qed.

Lemma waits_log (e : effect) : e ∈ drain_messages → waits (emit e).
Proof.
  intros He w. exists 0%nat, [e].
  split; [|apply Forall_cons_2; [done|apply Forall_nil_2]].
  by rewrite env_only_0.
Qed.

Lemma waits_loop (fuel : nat) (cond : Server → bool) (body : M ctl) :
  waits body → waits (loop_ fuel cond body).
Proof.
  intros Hb. induction fuel as [|fuel IH]; intros w; simpl.
  - apply only_waited_refl.
  - destruct (cond (w_self w)); [|apply only_waited_refl].
    specialize (Hb w). destruct (body w) as [[[]|e|] w1]; simpl in *; try done.
    eapply only_waited_trans; [exact Hb|]. apply IH.
Qed.

Lemma waits_while (cond : Server → bool) (body : M ctl) :
  waits body → waits (while_ cond body).
Proof. intros Hb w. unfold while_. by apply waits_loop. Qed.

Lemma waits_for_each {A} (l : list A) (f : A → M unit) :
  (∀ x, waits (f x)) → waits (for_each l f).
Proof.
  intros Hf. induction l as [|x l IH]; simpl.
  - apply waits_ret.
  - apply waits_bind; [apply Hf|]. intros _. apply IH.
Qed.

Lemma waits_wait_tasks_to_complete (armed : bool) :
  waits (_wait_tasks_to_complete armed).
Proof.
  unfold _wait_tasks_to_complete.
  apply waits_bind; [apply waits_get_self|]. intros self.
  apply waits_bind.
  { destruct (_ && _); [|apply waits_ret].
    apply waits_bind.
    - apply waits_log. apply list_elem_of_here.
    - intros _. apply waits_while.
      apply waits_bind; [apply waits_suspend|]. intros _. apply waits_ret. }
  intros _. apply waits_bind; [apply waits_get_self|]. intros self1.
  apply waits_bind.
  { destruct (_ && _); [|apply waits_ret].
    apply waits_bind.
    - apply waits_log. apply list_elem_of_further, list_elem_of_here.
    - intros _. apply waits_while.
      apply waits_bind; [apply waits_suspend|]. intros _. apply waits_ret. }
  intros _. apply waits_bind; [apply waits_get_self|]. intros self2.
  apply waits_for_each. intros _. apply waits_suspend.
Qed.

(** X17: the drain runs no code that changes anything.  Whatever its
    outcome, [_wait_tasks_to_complete] leaves the world that the environment
    alone made, with at most the two messages of the drain added to the
    trace: it closes nothing, cancels nothing and writes to no attribute. *)
Theorem wait_tasks_to_complete_only_waits (armed : bool) (w : World) :
  ∃ (k : nat) (logs : list effect),
    (_wait_tasks_to_complete armed w).2 = with_trace (w_trace w ++ logs) (env_only k w) ∧
    Forall (fun e => e ∈ drain_messages) logs.
Proof. exact (waits_wait_tasks_to_complete armed w). Qed.

(** X18: with no open connection or a forced exit, and no running task or a
    forced exit, [_wait_tasks_to_complete] logs nothing and enters neither
    polling loop: all it does is wait for each listener to report closed. *)
Theorem wait_tasks_to_complete_nothing_to_drain (armed : bool) (w : World) :
  connections (server_state (w_self w)) = ∅ ∨ force_exit (w_self w) = true →
  tasks (server_state (w_self w)) = ∅ ∨ force_exit (w_self w) = true →
  _wait_tasks_to_complete armed w
  = for_each (servers (w_self w)) (fun _ => suspend armed) w.
Proof.
  intros Hc Ht. unfold _wait_tasks_to_complete, mbind, M_bind, get_self, nonempty.
  cbn [w_self].
  assert (C : bool_decide (connections (server_state (w_self w)) ≠ ∅)
              && negb (force_exit (w_self w)) = false).
  { destruct Hc as [-> | ->]; [|apply andb_false_r]. by rewrite bool_decide_false by auto. }
  assert (T : bool_decide (tasks (server_state (w_self w)) ≠ ∅)
              && negb (force_exit (w_self w)) = false).
  { destruct Ht as [-> | ->]; [|apply andb_false_r]. by rewrite bool_decide_false by auto. }
  rewrite C. unfold mret, M_ret. cbn [w_self]. rewrite T. done.
Qed.

Lemma wait_tasks_to_complete_nothing_to_drain_witness :
  _wait_tasks_to_complete true forced_world
  = for_each (servers (w_self forced_world)) (fun _ => suspend true) forced_world.
Proof.
  apply (wait_tasks_to_complete_nothing_to_drain true forced_world).
  - right. reflexivity.
  - right. reflexivity.
Defined.

Lemma wait_tasks_to_complete_frame (w : World) :
  ∃ (k : nat) (logs : list effect),
    w_trace (shutdown_drain w).2 = w_trace w ++ logs.
Proof.
  destruct (waits_wait_tasks_to_complete
              (bool_decide (Z.mul 1000 <$> timeout_graceful_shutdown (config (w_self w))
                            ≠ None)) w) as (k & logs & Hk & _).
  exists k, logs.
  unfold shutdown_drain, mbind, M_bind, get_self, wait_for. cbn [w_self].
  rewrite Hk. cbn [w_trace with_trace]. done.
Qed.

Lemma suspend_trace (armed : bool) (w : World) :
  w_trace (suspend armed w).2 = w_trace w.
Proof.
  destruct (waits_suspend armed w) as (k & logs & H & _).
  destruct (suspend_on_env armed (w_sched w) w) as [k' Hk].
  unfold suspend. rewrite Hk. apply (env_only_trace k' w).
Qed.

(** X19: [shutdown] begins by closing every listener and every socket it
    was given and by asking every open connection to shut down, in that
    order and before it waits for anything; these calls are made whatever
    happens afterwards, also when the shutdown is cancelled or never ends. *)
Theorem shutdown_closes_first (sockets : option (list positive)) (w : World) :
  ∃ rest : list effect,
    w_trace (shutdown sockets w).2
    = w_trace w
      ++ [Log INFO "Shutting down" []]
      ++ map ListenerClose (servers (w_self w))
      ++ map SocketClose (default [] sockets)
      ++ map ConnectionShutdown (elements (connections (server_state (w_self w))))
      ++ rest.
Proof.
  set (P := [Log INFO "Shutting down" []]
            ++ map ListenerClose (servers (w_self w))
            ++ map SocketClose (default [] sockets)
            ++ map ConnectionShutdown (elements (connections (server_state (w_self w))))).
  assert (G : ∃ rest, w_trace (shutdown sockets w).2 = (w_trace w ++ P) ++ rest).
  { unfold shutdown. unfold mbind at 1 2. unfold M_bind at 1 2.
    rewrite shutdown_stop_accepting_spec. fold P.
    pose proof (suspend_trace false (with_trace (w_trace w ++ P) w)) as Hs.
    destruct (suspend false _) as [[[]|e|] w1]; simpl in Hs;
      try (exists []; simpl; by rewrite Hs, app_nil_r).
    unfold try_except.
    destruct (wait_tasks_to_complete_frame w1) as (k & logs & Hd).
    destruct (shutdown_drain w1) as [[[]|e|] w2]; simpl in Hd.
    - unfold mbind, M_bind, get_self. destruct (negb _); simpl.
      + exists (logs ++ [LifespanShutdown]). by rewrite Hd, Hs, !app_assoc.
      + exists logs. by rewrite Hd, Hs.
    - destruct (exn_eqb e TimeoutError).
      + rewrite force_cancel_tasks_spec. unfold mbind, M_bind, get_self.
        destruct (negb _); simpl; eexists; rewrite Hd, Hs, <- !app_assoc; reflexivity.
      + exists logs. simpl. by rewrite Hd, Hs.
    - exists logs. simpl. by rewrite Hd, Hs. }
  destruct G as [rest G]. exists rest. rewrite G. unfold P. by rewrite <- !app_assoc.
Qed.

(** X20: a drain that finishes before its deadline cancels nothing and logs
    no error: [shutdown] goes straight to the lifespan handshake, which it
    skips only when [force_exit] is set. *)
Theorem shutdown_drain_completed
    (sockets : option (list positive)) (w w1 w2 : World) :
  shutdown_stop_accepting sockets w = (Ok tt, w1) →
  shutdown_drain w1 = (Ok tt, w2) →
  let '(r, w3) := shutdown sockets w in
  r = Ok tt ∧
  w_trace w3 = w_trace w2 ++ (if force_exit (w_self w2) then [] else [LifespanShutdown]) ∧
  w_self w3 = w_self w2 ∧
  w_heap w3 = w_heap w2.
Proof.
  intros H1 H2. unfold shutdown. unfold mbind at 1 2. unfold M_bind at 1 2.
  rewrite H1. unfold try_except. rewrite H2.
  unfold mbind, M_bind, get_self, emit, mret, M_ret. cbn [w_self].
  destruct (force_exit (w_self w2)); simpl; [|done].
  by rewrite app_nil_r.
Qed.

Lemma shutdown_drain_completed_witness :
  let w := example_world (mkConfig None (Some 2)) [EnvStep id] in
  let w2 := (shutdown_drain (shutdown_stop_accepting None w).2).2 in
  let '(r, w3) := shutdown None w in
  r = Ok tt ∧
  w_trace w3 = w_trace w2 ++ (if force_exit (w_self w2) then [] else [LifespanShutdown]) ∧
  w_self w3 = w_self w2 ∧
  w_heap w3 = w_heap w2.
Proof.
  apply (shutdown_drain_completed None (example_world (mkConfig None (Some 2)) [EnvStep id])
           (shutdown_stop_accepting None
              (example_world (mkConfig None (Some 2)) [EnvStep id])).2
           (shutdown_drain
              (shutdown_stop_accepting None
                 (example_world (mkConfig None (Some 2)) [EnvStep id])).2).2).
  - vm_compute. reflexivity.
  - vm_compute. reflexivity.
Defined.

(** X21: only the timeout is handled.  Any other exception that ends the
    drain, a cancellation of the shutdown itself for one, leaves [shutdown]
    at once: no task is cancelled and the lifespan handshake is not run. *)
Theorem shutdown_drain_other_exception
    (sockets : option (list positive)) (w w1 w2 : World) (e : exn) :
  shutdown_stop_accepting sockets w = (Ok tt, w1) →
  shutdown_drain w1 = (Raise e, w2) →
  e ≠ TimeoutError →
  shutdown sockets w = (Raise e, w2).
Proof.
  intros H1 H2 He. unfold shutdown. unfold mbind at 1 2. unfold M_bind at 1 2.
  rewrite H1. unfold try_except. rewrite H2.
  by destruct e.
Qed.

Lemma shutdown_drain_other_exception_witness :
  shutdown None cancelled_drain_world
  = (Raise CancelledError,
     (shutdown_drain (shutdown_stop_accepting None cancelled_drain_world).2).2).
Proof.
  apply (shutdown_drain_other_exception None cancelled_drain_world
           (shutdown_stop_accepting None cancelled_drain_world).2
           (shutdown_drain (shutdown_stop_accepting None cancelled_drain_world).2).2
           CancelledError).
  - vm_compute. reflexivity.
  - vm_compute. reflexivity.
  - discriminate.
Defined.

(** In that run the tasks 7 and 9 are left alone. *)
Example shutdown_cancelled_drain_trace :
  w_trace (shutdown None cancelled_drain_world).2
  = [Log INFO "Shutting down" [];
     ListenerClose 11;
     ConnectionShutdown 3;
     Log INFO "Waiting for connections to close. (CTRL+C to force quit)" []].
Proof. vm_compute. reflexivity. Qed.

(** ** The monitor ends quietly *)




(** A cancellation that arrives while the monitor waits ends it normally. *)
Example check_max_requests_cancelled :
  (_check_max_requests
     (example_world (mkConfig (Some 5) None) [EnvTimeout; EnvCancel; EnvTimeout])).1
  = Ok tt.
Proof. vm_compute. reflexivity. Qed.

(** ** The date-refresh loop *)

Section DateHeaderLoopFacts.

Variable formatdate : Z -> string.
Variable date_header : bool.
Variable encoded_headers : list (bytes * bytes).

(** X22: an iteration of the date-refresh loop rebuilds the default headers
    as the date header, when it is enabled, followed by the configured
    headers in their order; with a cache that is empty or holds the date of
    its second, the date is that of the current second, also when it comes
    from the cache.  Nothing else of the server is written, and after the
    rebuild the iteration only waits. *)
Theorem update_date_header_iter_rebuilds (now : Z) (w : World) :
  date_cache_consistent formatdate (server_state (w_self w)) →
  let w1 := (rebuild_default_headers formatdate date_header encoded_headers now w).2 in
  default_headers (server_state (w_self w1))
  = (if date_header
     then [(list_byte_of_string "date", encode (formatdate now))]
     else [])
    ++ encoded_headers ∧
  date_cache_consistent formatdate (server_state (w_self w1)) ∧
  w1 = with_self
         (with_server_state
            (with_default_headers (default_headers (server_state (w_self w1)))
               (get_date_header formatdate (server_state (w_self w)) now).1.2)
            (w_self w))
         w ∧
  ∃ k, (update_date_header_iter formatdate date_header encoded_headers now w).2
       = env_only k w1.
Proof.
  intros Hc.
  destruct (get_date_header_consistent formatdate (server_state (w_self w)) now Hc)
    as [H1 H2].
  unfold update_date_header_iter, mbind, M_bind, get_self.
  unfold rebuild_default_headers.
  destruct (get_date_header formatdate (server_state (w_self w)) now) as [[v s1] c].
  simpl in H1, H2. subst v. cbn [snd fst default].
  split; [done|]. split; [exact H2|]. split; [done|].
  unfold try_except, wait_for.
  match goal with
  | |- context [Event_wait ?l ?a ?x] =>
      destruct (Event_wait_env a l x) as [k Hk];
      pose proof (Event_wait_on_result a l (w_sched x) x) as Hr;
      unfold Event_wait in *;
      destruct (Event_wait_on a l (w_sched x) x) as [r w2]
  end.
  simpl in Hk, Hr. subst w2. exists k.
  by destruct Hr as [ -> | [ -> | [ -> | -> ] ] ].
Qed.

End DateHeaderLoopFacts.

Lemma update_date_header_iter_rebuilds_witness :
  let fmt := fun t : Z => ("epoch " +:+ pretty t)%string in
  let extra := [(list_byte_of_string "server", list_byte_of_string "uvicorn")] in
  let w := example_world (mkConfig None None) [EnvTimeout] in
  let w1 := (rebuild_default_headers fmt true extra 1704067200 w).2 in
  default_headers (server_state (w_self w1))
  = (if true
     then [(list_byte_of_string "date", encode (fmt 1704067200))]
     else [])
    ++ extra ∧
  date_cache_consistent fmt (server_state (w_self w1)) ∧
  w1 = with_self
         (with_server_state
            (with_default_headers (default_headers (server_state (w_self w1)))
               (get_date_header fmt (server_state (w_self w)) 1704067200).1.2)
            (w_self w))
         w ∧
  ∃ k, (update_date_header_iter fmt true extra 1704067200 w).2 = env_only k w1.
Proof.
  apply (update_date_header_iter_rebuilds
           (fun t : Z => ("epoch " +:+ pretty t)%string) true
           [(list_byte_of_string "server", list_byte_of_string "uvicorn")]
           1704067200
           (example_world (mkConfig None None) [EnvTimeout])).
  intros v H. discriminate H.
Defined.

(** Three iterations in two different seconds, the loop then cancelled: the
    headers carry the date of the last reading and the loop ends normally. *)
Example update_date_header_loop_run :
  let fmt := fun t : Z => ("epoch " +:+ pretty t)%string in
  let extra := [(list_byte_of_string "server", list_byte_of_string "uvicorn")] in
  let r := _update_date_header_loop fmt true extra [7; 7; 8; 9]
             (example_world (mkConfig None None) [EnvTimeout; EnvTimeout; EnvCancel]) in
  r.1 = Ok tt ∧
  default_headers (server_state (w_self r.2))
  = [(list_byte_of_string "date", list_byte_of_string "epoch 8");
     (list_byte_of_string "server", list_byte_of_string "uvicorn")].
Proof. vm_compute. done. Qed.

(** ** The monitor reacts within one interval *)

(** X16: when handlers complete requests while the monitor waits and the
    ceiling is thereby reached, the monitor fires at its next check, that
    is as soon as the wait of 100 ms times out: it sets [should_exit] and
    the shutdown event, logs the warning and returns. *)
Theorem check_max_requests_fires_after_interval
    (w : World) (f : Server * heap → Server * heap) (rest : list env_event) (limit : Z) :
  let ev := _shutdown_event (server_state (w_self w)) in
  let w1 := with_sched rest (deliver (EnvStep f) w) in
  w_sched w = EnvStep f :: EnvTimeout :: rest →
  should_exit (w_self w) = false →
  limit_max_requests (config (w_self w)) = Some limit →
  total_requests (server_state (w_self w)) < limit →
  Event_is_set ev (w_heap w) ≠ Some true →
  should_exit (w_self w1) = false →
  limit_max_requests (config (w_self w1)) = Some limit →
  limit ≤ total_requests (server_state (w_self w1)) →
  Event_is_set ev (w_heap w1) ≠ Some true →
  _check_max_requests w = (Ok tt, monitor_fired limit w1).
Proof.
  intros ev w1 Hsched Hx Hl Ht He Hx1 Hl1 Ht1 He1.
  unfold _check_max_requests, try_except, while_. rewrite Hsched.
  cbn [length loop_]. rewrite Hx. cbn [negb].
  assert (He1' : Event_is_set ev (w_heap (deliver (EnvStep f) w)) ≠ Some true)
    by exact He1.
  assert (I1 : check_max_requests_iter w = (Ok Continue, w1)).
  { unfold check_max_requests_iter, mbind, M_bind, get_self. cbn [w_self].
    rewrite Hl. destruct (Z.geb_spec (total_requests (server_state (w_self w))) limit);
      [lia|].
    unfold try_except, wait_for, Event_wait. rewrite Hsched.
    cbn [Event_wait_on]. fold ev.
    rewrite (bool_decide_false _ He), (bool_decide_false _ He1'). done. }
  rewrite I1. rewrite Hx1. cbn [negb].
  assert (I2 : check_max_requests_iter w1 = (Ok Break, monitor_fired limit w1)).
  { unfold check_max_requests_iter, mbind, M_bind, get_self. cbn [w_self].
    rewrite Hl1.
    destruct (Z.geb_spec (total_requests (server_state (w_self w1))) limit); [done|lia]. }
  by rewrite I2.
Qed.

Lemma check_max_requests_fires_after_interval_witness :
  _check_max_requests
    (example_world (mkConfig (Some 5) None)
       [EnvStep (requests_completed 5); EnvTimeout; EnvTimeout])
  = (Ok tt,
     monitor_fired 5
       (with_sched [EnvTimeout]
          (deliver (EnvStep (requests_completed 5))
             (example_world (mkConfig (Some 5) None)
                [EnvStep (requests_completed 5); EnvTimeout; EnvTimeout])))).
Proof.
  apply (check_max_requests_fires_after_interval
           (example_world (mkConfig (Some 5) None)
              [EnvStep (requests_completed 5); EnvTimeout; EnvTimeout])
           (requests_completed 5) [EnvTimeout] 5).
  - reflexivity.
  - reflexivity.
  - reflexivity.
  - vm_compute. reflexivity.
  - vm_compute. discriminate.
  - reflexivity.
  - reflexivity.
  - vm_compute. discriminate.
  - vm_compute. discriminate.
Defined.
